(** * Investment portfolio simulator: model.py and helpers.py

    A shallow embedding of the Monte Carlo engine
    ([investment_simulator/model.py], [investment_simulator/helpers.py]).

    Numbers.  Python floats (and the ints the input form produces) are
    embedded as exact rationals [Q]: every arithmetic step of the source is
    kept, rounding is not.  The one float the source can produce that has no
    rational counterpart, the [nan] of [np.mean] over an empty array, is
    written [None].

    Effects.  The process-wide numpy random source is an explicit state
    [RandomState] that is threaded through every call; Python exceptions are
    the [Raise] case of [result]. *)

From Stdlib Require Import QArith Qround ZArith List Lia Lqa Bool.
From Stdlib Require Import Orders Sorted Permutation Mergesort.
Import ListNotations.

Open Scope Q_scope.

(** ** Exceptions and the two monads of the embedding *)

Inductive py_error : Type :=
| ValueError
| IndexError.

Inductive result (A : Type) : Type :=
| Ok (a : A)
| Raise (e : py_error).

Arguments Ok {A} a.
Arguments Raise {A} e.

Definition rbind {A B : Type} (r : result A) (k : A -> result B) : result B :=
  match r with
  | Ok a => k a
  | Raise e => Raise e
  end.

Notation "'try' x <- r ; k" := (rbind r (fun x => k))
  (at level 10, x pattern, r at level 100, k at level 200).

(** [for x in xs: acc = body(acc, x)], stopping at the first exception. *)
Fixpoint for_each {A S : Type} (body : S -> A -> result S) (xs : list A) (s : S)
  : result S :=
  match xs with
  | [] => Ok s
  | x :: xs' => try s' <- body s x; for_each body xs' s'
  end.

(** [[f(x) for x in xs]], stopping at the first exception. *)
Fixpoint map_result {A B : Type} (f : A -> result B) (xs : list A)
  : result (list B) :=
  match xs with
  | [] => Ok []
  | x :: xs' => try y <- f x; try ys <- map_result f xs'; Ok (y :: ys)
  end.

(** [range(n)] and [enumerate(xs)]. *)
Definition range (n : nat) : list nat := seq 0 n.

Definition enumerate {A : Type} (xs : list A) : list (nat * A) :=
  combine (range (length xs)) xs.

(** [zip( *rows )]: the columns of [rows], as many as the shortest row has
    entries; no column at all when there is no row. *)
Definition zip_star (rows : list (list Q)) : list (list Q) :=
  match rows with
  | [] => []
  | r :: rest =>
      map (fun i => map (fun row => nth i row 0) rows)
          (range (fold_right Nat.min (length r) (map (@length Q) rest)))
  end.

(** ** The numpy functions the engine calls *)

Module QLeBool <: TotalLeBool.
Definition t : Type := Q.
Definition leb : Q -> Q -> bool := Qle_bool.
Lemma leb_total : forall x y, leb x y = true \/ leb y x = true.
Proof.
  intros x y. unfold leb. rewrite !Qle_bool_iff.
  destruct (Qlt_le_dec x y) as [Hlt | Hle]; [left | right]; lra.
Qed.
End QLeBool.

Module QSort := Sort QLeBool.

Module np.

(** The global generator: an unbounded supply of standard normal variates
    and the number of them already consumed. *)
Record RandomState : Type := mkRandomState {
  supply : nat -> Q;
  cursor : nat
}.

(** [np.random.normal(loc, scale, size)]: [size] fresh variates, each
    scaled and shifted; a negative [scale] raises [ValueError]. *)
Definition random_normal (loc scale : Q) (size : nat) (st : RandomState)
  : result (list Q * RandomState) :=
  if Qle_bool 0 scale
  then Ok (map (fun k => loc + scale * supply st k) (seq (cursor st) size),
           mkRandomState (supply st) (cursor st + size))
  else Raise ValueError.

Definition sum (a : list Q) : Q := fold_left Qplus a 0.

(** [np.mean(a)]; [None] is the [nan] numpy returns for an empty array. *)
Definition mean (a : list Q) : option Q :=
  match a with
  | [] => None
  | _ => Some (sum a / inject_Z (Z.of_nat (length a)))
  end.

(** numpy's [_lerp]: interpolates from [a] below one half, from [b] above. *)
Definition lerp (a b t : Q) : Q :=
  let diff_b_a := b - a in
  if Qle_bool (1 # 2) t
  then b - diff_b_a * (1 - t)
  else a + diff_b_a * t.

(** numpy's [_quantile] for the method [linear], on data that is not empty:
    the value at the virtual index [(n - 1) * q / 100] of the sorted data,
    interpolated between its two neighbours; the upper neighbour is clamped
    to the last index. *)
Definition quantile_linear (a : list Q) (q : Q) : Q :=
  let arr := QSort.sort a in
  let n := length a in
  let virtual_index := (inject_Z (Z.of_nat n) - 1) * (q / 100) in
  let previous_index := Z.to_nat (Qfloor virtual_index) in
  let next_index := Nat.min (previous_index + 1) (n - 1) in
  let gamma := virtual_index - inject_Z (Qfloor virtual_index) in
  lerp (nth previous_index arr 0) (nth next_index arr 0) gamma.

(** [np.percentile(a, q)] with the default method.  A [q] outside
    [0, 100] raises [ValueError], empty data raises [IndexError]. *)
Definition percentile (a : list Q) (q : Q) : result Q :=
  if negb (Qle_bool 0 q && Qle_bool q 100) then Raise ValueError
  else
    match a with
    | [] => Raise IndexError
    | _ => Ok (quantile_linear a q)
    end.

End np.

(** The state-and-exception monad of code that draws random numbers. *)
Definition M (A : Type) : Type := np.RandomState -> result (A * np.RandomState).

Definition ret {A : Type} (a : A) : M A := fun st => Ok (a, st).

Definition bind {A B : Type} (m : M A) (k : A -> M B) : M B :=
  fun st =>
    match m st with
    | Ok (a, st') => k a st'
    | Raise e => Raise e
    end.

Definition lift {A : Type} (r : result A) : M A :=
  fun st =>
    match r with
    | Ok a => Ok (a, st)
    | Raise e => Raise e
    end.

Notation "'do' x <- m ; k" := (bind m (fun x => k))
  (at level 10, x pattern, m at level 100, k at level 200).

(** ** helpers.py *)

(** The [inputs] dict, with the keys the engine reads. *)
Record Inputs : Type := mkInputs {
  initial_investment : Q;
  monthly_contribution : Q;
  yearly_bonus : Q;
  years : nat;
  estimated_roi : Q;
  volatility : Q
}.

Definition get_random_returns (years : nat) (estimated_roi volatility : Q)
  : M (list Q) :=
  do returns <- np.random_normal estimated_roi volatility years;
  ret (map (fun r => r + 1) returns).

Definition get_confidence_levels (final_balances : list Q) : result (Q * Q) :=
  try upper_confidence <- np.percentile final_balances (975 # 10);
  try lower_confidence <- np.percentile final_balances (25 # 10);
  Ok (lower_confidence, upper_confidence).

(** The [pd.DataFrame] of [get_yearly_percentiles], column by column. *)
Record DataFrame : Type := mkDataFrame {
  col_year : list nat;
  col_95th : list Q;
  col_75th : list Q;
  col_median : list Q;
  col_25th : list Q;
  col_5th : list Q;
  col_invested : list Q
}.

(** What one turn of the loop of [get_yearly_percentiles] appends. *)
Record Row : Type := mkRow {
  row_year : nat;
  row_95th : Q;
  row_75th : Q;
  row_median : Q;
  row_25th : Q;
  row_5th : Q;
  row_invested : Q
}.

Definition percentile_row (inputs : Inputs) (entry : nat * list Q) : result Row :=
  let '(i, year_results) := entry in
  try p95 <- np.percentile year_results 95;
  try p75 <- np.percentile year_results 75;
  try p50 <- np.percentile year_results 50;
  try p25 <- np.percentile year_results 25;
  try p5 <- np.percentile year_results 5;
  Ok (mkRow i p95 p75 p50 p25 p5
        (initial_investment inputs +
         (monthly_contribution inputs * 12 + yearly_bonus inputs)
         * inject_Z (Z.of_nat i))).

Definition frame_of_rows (rows : list Row) : DataFrame :=
  mkDataFrame (map row_year rows) (map row_95th rows) (map row_75th rows)
              (map row_median rows) (map row_25th rows) (map row_5th rows)
              (map row_invested rows).

Definition get_yearly_percentiles (results : list (list Q)) (inputs : Inputs)
  : result DataFrame :=
  let results_rotated := zip_star results in
  try rows <- map_result (percentile_row inputs) (enumerate results_rotated);
  Ok (frame_of_rows rows).

(** ** model.py *)

(** The body of [for i in range(years)] in [perform_simulation]; the state is
    [(balance, history)]. *)
Definition year_body (inputs : Inputs) (returns : list Q)
    (st : Q * list Q) (i : nat) : result (Q * list Q) :=
  let '(balance, history) := st in
  match nth_error returns i with
  | None => Raise IndexError
  | Some annual_return =>
      let monthly_rate := (annual_return - 1) / 12 in
      let balance :=
        Nat.iter 12
          (fun balance => (balance + monthly_contribution inputs) * (1 + monthly_rate))
          balance in
      let balance := balance + yearly_bonus inputs in
      Ok (balance, history ++ [balance])
  end.

(** [perform_simulation] from the line after the call of
    [get_random_returns] on: what the function returns for a given sequence
    of return multipliers. *)
Definition simulate_path (inputs : Inputs) (returns : list Q)
  : result (Q * list Q * option Q) :=
  let balance := initial_investment inputs in
  let mean_return := option_map (fun m => (m - 1) * 100) (np.mean returns) in
  let history := [balance] in
  try final <- for_each (year_body inputs returns) (range (years inputs))
                        (balance, history);
  let '(balance, history) := final in
  Ok (balance, history, mean_return).

Definition perform_simulation (inputs : Inputs) : M (Q * list Q * option Q) :=
  do returns <- get_random_returns (years inputs) (estimated_roi inputs)
                                   (volatility inputs);
  lift (simulate_path inputs returns).

(** The dict [perform_monte_carlo] returns. *)
Record SimulationResult : Type := mkSimulationResult {
  final_balances : list Q;
  results : list (list Q);
  yearly_percentiles : DataFrame;
  lower_confidence : Q;
  upper_confidence : Q;
  mean_returns : list (option Q)
}.

(** The loop [for _ in range(n)] of [perform_monte_carlo]; the state is the
    three lists it appends to. *)
Fixpoint monte_carlo_loop (inputs : Inputs) (n : nat)
    (acc : list Q * list (list Q) * list (option Q))
  : M (list Q * list (list Q) * list (option Q)) :=
  match n with
  | O => ret acc
  | S n' =>
      let '(final_balances, results, mean_returns) := acc in
      do sim <- perform_simulation inputs;
      let '(final_balance, history, mean_return) := sim in
      monte_carlo_loop inputs n'
        (final_balances ++ [final_balance], results ++ [history],
         mean_returns ++ [mean_return])
  end.

Definition perform_monte_carlo (inputs : Inputs) (n : nat) : M SimulationResult :=
  do acc <- monte_carlo_loop inputs n ([], [], []);
  let '(final_balances, results, mean_returns) := acc in
  do conf <- lift (get_confidence_levels final_balances);
  let '(lower_confidence, upper_confidence) := conf in
  do yearly_percentiles <- lift (get_yearly_percentiles results inputs);
  ret (mkSimulationResult final_balances results yearly_percentiles
         lower_confidence upper_confidence mean_returns).

(** ** Sample inputs: the scenario of the specification, a still source *)

Definition default_inputs : Inputs :=
  mkInputs 50000 1000 5000 1 (8 # 100) (15 # 100).

Definition flat_source : np.RandomState := np.mkRandomState (fun _ => 0) 0.

(** ** The specification's vocabulary

    These definitions follow the words of the specification, not the code;
    the theorems below compare them with the embedding above. *)

(** [k] monthly steps: add the contribution, then grow by [1 + rate]. *)
Fixpoint monthly_steps (k : nat) (contribution rate balance : Q) : Q :=
  match k with
  | O => balance
  | S k' => monthly_steps k' contribution rate ((balance + contribution) * (1 + rate))
  end.

(** One year: twelve monthly steps at the de-annualised rate, then the bonus. *)
Definition next_year_value (inputs : Inputs) (multiplier value : Q) : Q :=
  monthly_steps 12 (monthly_contribution inputs) ((multiplier - 1) / 12) value
  + yearly_bonus inputs.

(** The balances at the year boundaries, from the value [value] on. *)
Fixpoint trajectory (inputs : Inputs) (value : Q) (multipliers : list Q) : list Q :=
  value ::
  match multipliers with
  | [] => []
  | m :: rest => trajectory inputs (next_year_value inputs m value) rest
  end.

(** The arithmetic average of a sequence that is not empty. *)
Definition average (xs : list Q) : Q :=
  fold_right Qplus 0 xs / inject_Z (Z.of_nat (length xs)).

(** The cumulative amount invested by year [i]. *)
Definition invested_by (inputs : Inputs) (i : nat) : Q :=
  initial_investment inputs
  + (monthly_contribution inputs * 12 + yearly_bonus inputs) * inject_Z (Z.of_nat i).

(** ** Definitions the statements and proofs share *)

(** The balances of all paths at year [i]. *)
Definition balances_at (results : list (list Q)) (i : nat) : list Q :=
  map (fun path => nth i path 0) results.

(** The row [percentile_row] computes from an entry whose data is not empty. *)
Definition row_of (inputs : Inputs) (entry : nat * list Q) : Row :=
  mkRow (fst entry)
        (np.quantile_linear (snd entry) 95) (np.quantile_linear (snd entry) 75)
        (np.quantile_linear (snd entry) 50) (np.quantile_linear (snd entry) 25)
        (np.quantile_linear (snd entry) 5)
        (invested_by inputs (fst entry)).

(** The virtual index of the [q]-th percentile in data of [n] values. *)
Definition virtual_index (n : nat) (q : Q) : Q :=
  (inject_Z (Z.of_nat n) - 1) * (q / 100).

(** The value interpolated in sorted data [s] at the virtual index [v]. *)
Definition at_index (s : list Q) (v : Q) : Q :=
  let p := Z.to_nat (Qfloor v) in
  np.lerp (nth p s 0) (nth (Nat.min (p + 1) (length s - 1)) s 0)
          (v - inject_Z (Qfloor v)).

(** The virtual indices that fall on the data [s]. *)
Definition in_range (s : list Q) (v : Q) : Prop :=
  0 <= v /\ v <= inject_Z (Z.of_nat (length s) - 1).

(** The multipliers [get_random_returns] hands out in state [st]. *)
Definition drawn_returns (inputs : Inputs) (st : np.RandomState) : list Q :=
  map (fun r => r + 1)
      (map (fun k => estimated_roi inputs + volatility inputs * np.supply st k)
           (seq (np.cursor st) (years inputs))).

Definition advance (st : np.RandomState) (k : nat) : np.RandomState :=
  np.mkRandomState (np.supply st) (np.cursor st + k).

(** What one path started in state [st] contributes to the three lists. *)
Definition path_from (inputs : Inputs) (st : np.RandomState)
  : Q * list Q * option Q :=
  let h := trajectory inputs (initial_investment inputs) (drawn_returns inputs st) in
  (last h (initial_investment inputs), h,
   option_map (fun m => (m - 1) * 100) (np.mean (drawn_returns inputs st))).

(** The three components of what [perform_simulation] returns. *)
Definition final_of (p : Q * list Q * option Q) : Q := fst (fst p).
Definition history_of (p : Q * list Q * option Q) : list Q := snd (fst p).
Definition mean_of (p : Q * list Q * option Q) : option Q := snd p.

(** The percentile table of a collection of trajectories. *)
Definition table_of (inputs : Inputs) (results : list (list Q)) : DataFrame :=
  frame_of_rows (map (row_of inputs) (enumerate (zip_star results))).

(** Row [i] of a table is ordered when its five percentiles ascend. *)
Definition row_ordered (df : DataFrame) (i : nat) : Prop :=
  nth i (col_5th df) 0 <= nth i (col_25th df) 0 /\
  nth i (col_25th df) 0 <= nth i (col_median df) 0 /\
  nth i (col_median df) 0 <= nth i (col_75th df) 0 /\
  nth i (col_75th df) 0 <= nth i (col_95th df) 0.

(** Row [i] of a table holds the five percentiles of the data [xs]. *)
Definition row_percentiles (df : DataFrame) (i : nat) (xs : list Q) : Prop :=
  np.percentile xs 5 = Ok (nth i (col_5th df) 0) /\
  np.percentile xs 25 = Ok (nth i (col_25th df) 0) /\
  np.percentile xs 50 = Ok (nth i (col_median df) 0) /\
  np.percentile xs 75 = Ok (nth i (col_75th df) 0) /\
  np.percentile xs 95 = Ok (nth i (col_95th df) 0).

(** Every percentile of row [i] of a table is the value [x]. *)
Definition row_collapses (df : DataFrame) (i : nat) (x : Q) : Prop :=
  nth i (col_5th df) 0 == x /\
  nth i (col_25th df) 0 == x /\
  nth i (col_median df) 0 == x /\
  nth i (col_75th df) 0 == x /\
  nth i (col_95th df) 0 == x.

(** Inputs with a negative initial investment, outside the declared domain. *)
Definition indebted_inputs : Inputs :=
  mkInputs (-1000) 1000 5000 1 (8 # 100) (15 # 100).

(** Inputs with a negative volatility. *)
Definition negative_volatility_inputs : Inputs :=
  mkInputs 50000 1000 5000 1 (8 # 100) (- (15 # 100)).

(** Inputs with a horizon of zero years. *)
Definition zero_horizon_inputs : Inputs :=
  mkInputs 50000 1000 5000 0 (8 # 100) (15 # 100).

(** ** The path simulator *)

Section PathSimulator.

Variable inputs : Inputs.

Lemma iter_monthly_steps (k : nat) (rate balance : Q) :
  Nat.iter k (fun b => (b + monthly_contribution inputs) * (1 + rate)) balance
  = monthly_steps k (monthly_contribution inputs) rate balance.
Proof.
  revert balance. induction k as [| k IH]; intros balance.
  - reflexivity.
  - rewrite Nat.iter_succ_r. simpl. apply IH.
Qed.

Lemma year_body_step (returns : list Q) (balance : Q) (history : list Q)
      (i : nat) (m : Q) :
  nth_error returns i = Some m ->
  year_body inputs returns (balance, history) i
  = Ok (next_year_value inputs m balance,
        history ++ [next_year_value inputs m balance]).
Proof.
  intros Hm. unfold year_body. rewrite Hm.
  rewrite iter_monthly_steps. reflexivity.
Qed.

Lemma skipn_cons_nth_error {A : Type} (l : list A) (i : nat) (x : A) :
  nth_error l i = Some x -> skipn i l = x :: skipn (S i) l.
Proof.
  revert i. induction l as [| y l IH]; intros [| i] H; simpl in *;
    try discriminate.
  - congruence.
  - now apply IH.
Qed.

Lemma trajectory_length (v : Q) (ms : list Q) :
  length (trajectory inputs v ms) = S (length ms).
Proof.
  revert v. induction ms as [| m ms IH]; intros v; simpl.
  - reflexivity.
  - now rewrite IH.
Qed.

Lemma trajectory_last (v d : Q) (ms : list Q) :
  last (trajectory inputs v ms) d
  = match ms with
    | [] => v
    | m :: rest => last (trajectory inputs (next_year_value inputs m v) rest) d
    end.
Proof.
  destruct ms as [| m rest]; [reflexivity |].
  change (trajectory inputs v (m :: rest))
    with (v :: trajectory inputs (next_year_value inputs m v) rest).
  destruct (trajectory inputs (next_year_value inputs m v) rest) eqn:E.
  - pose proof (trajectory_length (next_year_value inputs m v) rest) as L.
    rewrite E in L. discriminate.
  - reflexivity.
Qed.

Lemma trajectory_last_default (v : Q) (ms : list Q) (d d' : Q) :
  last (trajectory inputs v ms) d = last (trajectory inputs v ms) d'.
Proof.
  revert v. induction ms as [| m ms IH]; intros v; [reflexivity |].
  rewrite !(trajectory_last v). apply IH.
Qed.

(** The loop of [perform_simulation], run from year [a] for [k] years. *)
Lemma year_loop (returns : list Q) (k a : nat) (balance : Q) (history : list Q) :
  (a + k <= length returns)%nat ->
  for_each (year_body inputs returns) (seq a k) (balance, history)
  = Ok (last (trajectory inputs balance (firstn k (skipn a returns))) balance,
        history ++ tl (trajectory inputs balance (firstn k (skipn a returns)))).
Proof.
  revert a balance history.
  induction k as [| k IH]; intros a balance history Hlen.
  - simpl. now rewrite app_nil_r.
  - destruct (nth_error returns a) as [m |] eqn:Hm.
    2:{ apply nth_error_None in Hm. lia. }
    rewrite (skipn_cons_nth_error _ _ _ Hm).
    cbn [seq for_each firstn]. rewrite (year_body_step _ _ _ _ _ Hm).
    cbn [rbind]. rewrite IH by lia.
    rewrite (trajectory_last balance).
    rewrite (trajectory_last_default _ _ balance (next_year_value inputs m balance)).
    cbn [trajectory tl]. rewrite <- app_assoc. cbn [app].
    do 3 f_equal.
    destruct (firstn k (skipn (S a) returns)); reflexivity.
Qed.

(** [perform_simulation], given its return multipliers, never raises, and
    returns the trajectory of the specification with its last value. *)
Lemma simulate_path_ok (returns : list Q) :
  length returns = years inputs ->
  simulate_path inputs returns
  = Ok (last (trajectory inputs (initial_investment inputs) returns)
             (initial_investment inputs),
        trajectory inputs (initial_investment inputs) returns,
        option_map (fun m => (m - 1) * 100) (np.mean returns)).
Proof.
  intros Hlen. unfold simulate_path, range.
  rewrite year_loop by lia. cbn [rbind].
  rewrite skipn_O, <- Hlen, firstn_all.
  destruct returns; reflexivity.
Qed.

Lemma drawn_returns_length (st : np.RandomState) :
  length (drawn_returns inputs st) = years inputs.
Proof. unfold drawn_returns. now rewrite !length_map, length_seq. Qed.

Lemma perform_simulation_ok (st : np.RandomState) :
  0 <= volatility inputs ->
  perform_simulation inputs st
  = Ok (path_from inputs st, advance st (years inputs)).
Proof.
  intros Hvol. apply Qle_bool_iff in Hvol.
  unfold perform_simulation, get_random_returns, bind, np.random_normal.
  rewrite Hvol. unfold ret, lift.
  change (map (fun r => r + 1) _) with (drawn_returns inputs st).
  rewrite simulate_path_ok by apply drawn_returns_length.
  reflexivity.
Qed.

Lemma perform_simulation_rejects (st : np.RandomState) :
  volatility inputs < 0 ->
  perform_simulation inputs st = Raise ValueError.
Proof.
  intros Hvol.
  unfold perform_simulation, get_random_returns, bind, np.random_normal.
  destruct (Qle_bool 0 (volatility inputs)) eqn:E; [| reflexivity].
  apply Qle_bool_iff in E. lra.
Qed.

Lemma trajectory_nth_0 (v : Q) (ms : list Q) :
  nth_error (trajectory inputs v ms) 0 = Some v.
Proof. destruct ms; reflexivity. Qed.

Lemma trajectory_nth_step (ms : list Q) :
  forall (v : Q) (i : nat) (m : Q),
    nth_error ms i = Some m ->
    exists x,
      nth_error (trajectory inputs v ms) i = Some x /\
      nth_error (trajectory inputs v ms) (S i)
      = Some (next_year_value inputs m x).
Proof.
  induction ms as [| m0 ms IH]; intros v [| i] m Hm; simpl in Hm;
    try discriminate.
  - injection Hm as <-. exists v. split; [reflexivity |].
    cbn [trajectory nth_error]. apply trajectory_nth_0.
  - destruct (IH (next_year_value inputs m0 v) i m Hm) as (x & Hx & Hsx).
    exists x. split; [exact Hx | exact Hsx].
Qed.

Lemma last_nth_error {A : Type} (l : list A) (d : A) :
  l <> [] -> nth_error l (length l - 1) = Some (last l d).
Proof.
  induction l as [| x l IH]; intros Hne; [congruence |].
  destruct l as [| y l]; [reflexivity |].
  specialize (IH ltac:(discriminate)).
  cbn [length] in IH |- *. rewrite Nat.sub_1_r in IH |- *.
  cbn [Nat.pred nth_error] in IH |- *. exact IH.
Qed.

Lemma trajectory_final (v : Q) (ms : list Q) :
  nth_error (trajectory inputs v ms) (length ms)
  = Some (last (trajectory inputs v ms) v).
Proof.
  rewrite <- (last_nth_error _ v).
  - now rewrite trajectory_length, Nat.sub_1_r.
  - destruct ms; discriminate.
Qed.

End PathSimulator.

(** ** Percentiles by linear interpolation *)

Module Percentile.

Lemma leb_transitive : Transitive (fun x y => is_true (QLeBool.leb x y)).
Proof.
  intros x y z Hxy Hyz. unfold is_true, QLeBool.leb in *.
  rewrite Qle_bool_iff in *. lra.
Qed.

Lemma sort_length (a : list Q) : length (QSort.sort a) = length a.
Proof. symmetry. apply Permutation_length, QSort.Permuted_sort. Qed.

Lemma sort_strongly_sorted (a : list Q) : StronglySorted Qle (QSort.sort a).
Proof.
  pose proof (QSort.StronglySorted_sort a leb_transitive) as HS.
  induction HS as [| x l _ IH Hall]; constructor; [exact IH |].
  eapply Forall_impl; [| exact Hall].
  intros y Hy. now apply Qle_bool_iff.
Qed.

(** In sorted data a later position never holds a smaller value. *)
Lemma sorted_nth_le (s : list Q) :
  StronglySorted Qle s ->
  forall i j, (i <= j)%nat -> (j < length s)%nat -> nth i s 0 <= nth j s 0.
Proof.
  induction 1 as [| x l _ IH Hall]; intros i j Hij Hj; simpl in Hj; [lia |].
  destruct j as [| j].
  - replace i with O by lia. simpl. lra.
  - destruct i as [| i]; simpl.
    + rewrite Forall_forall in Hall. apply Hall, nth_In. lia.
    + apply IH; lia.
Qed.

Lemma lerp_value (a b t : Q) : np.lerp a b t == a + (b - a) * t.
Proof. unfold np.lerp. destruct (Qle_bool (1 # 2) t); ring. Qed.

Lemma inject_nat_pos (n : nat) : (1 <= n)%nat -> 1 <= inject_Z (Z.of_nat n).
Proof.
  intros Hn. change 1 with (inject_Z 1). rewrite <- Zle_Qle. lia.
Qed.

Lemma virtual_index_range (n : nat) (q : Q) :
  (1 <= n)%nat -> 0 <= q -> q <= 100 ->
  0 <= virtual_index n q /\ virtual_index n q <= inject_Z (Z.of_nat n - 1).
Proof.
  intros Hn H0 H100. apply inject_nat_pos in Hn.
  unfold virtual_index.
  assert (E : q / 100 == q * (1 # 100)) by field.
  rewrite E.
  assert (Hm : inject_Z (Z.of_nat n - 1) == inject_Z (Z.of_nat n) - 1).
  { unfold Z.sub. rewrite inject_Z_plus. reflexivity. }
  rewrite Hm. split; nra.
Qed.

Lemma virtual_index_mono (n : nat) (q1 q2 : Q) :
  (1 <= n)%nat -> q1 <= q2 -> virtual_index n q1 <= virtual_index n q2.
Proof.
  intros Hn Hq. apply inject_nat_pos in Hn. unfold virtual_index.
  assert (E1 : q1 / 100 == q1 * (1 # 100)) by field.
  assert (E2 : q2 / 100 == q2 * (1 # 100)) by field.
  rewrite E1, E2. nra.
Qed.

(** The floor of a virtual index is a position of the data. *)
Lemma floor_position (n : nat) (v : Q) :
  0 <= v -> v <= inject_Z (Z.of_nat n - 1) ->
  (0 <= Qfloor v <= Z.of_nat n - 1)%Z.
Proof.
  intros H0 Hn. split.
  - change 0%Z with (Qfloor 0). now apply Qfloor_resp_le.
  - rewrite <- (Qfloor_Z (Z.of_nat n - 1)). now apply Qfloor_resp_le.
Qed.

Lemma fraction_range (v : Q) :
  0 <= v - inject_Z (Qfloor v) /\ v - inject_Z (Qfloor v) <= 1.
Proof.
  pose proof (Qfloor_le v) as Hlo. pose proof (Qlt_floor v) as Hhi.
  rewrite inject_Z_plus in Hhi. change (inject_Z 1) with 1 in Hhi.
  split; lra.
Qed.

Section Interpolation.

(** Sorted data [s]. *)
Variable s : list Q.
Hypothesis s_sorted : StronglySorted Qle s.

(** The value lies between its two neighbours. *)
Lemma at_index_between (v : Q) :
  in_range s v ->
  nth (Z.to_nat (Qfloor v)) s 0 <= at_index s v /\
  at_index s v <= nth (Nat.min (Z.to_nat (Qfloor v) + 1) (length s - 1)) s 0.
Proof.
  intros [H0 Hn]. pose proof (floor_position _ _ H0 Hn) as Hp.
  pose proof (fraction_range v) as [Hg0 Hg1].
  unfold at_index. cbv zeta. rewrite lerp_value.
  set (p := Z.to_nat (Qfloor v)) in *.
  assert (Hab : nth p s 0 <= nth (Nat.min (p + 1) (length s - 1)) s 0).
  { apply sorted_nth_le; [exact s_sorted | subst p; lia | lia]. }
  split; nra.
Qed.

Lemma at_index_mono (v1 v2 : Q) :
  in_range s v1 -> in_range s v2 -> v1 <= v2 -> at_index s v1 <= at_index s v2.
Proof.
  intros R1 R2 Hv.
  pose proof (at_index_between v1 R1) as [_ Hup1].
  pose proof (at_index_between v2 R2) as [Hlo2 _].
  destruct R1 as [H10 H1n], R2 as [H20 H2n].
  pose proof (floor_position _ _ H10 H1n) as Hp1.
  pose proof (floor_position _ _ H20 H2n) as Hp2.
  pose proof (Qfloor_resp_le _ _ Hv) as Hfl.
  destruct (Z.eq_dec (Qfloor v1) (Qfloor v2)) as [Heq | Hne].
  - (* both fall between the same two neighbours *)
    pose proof (fraction_range v1) as [Hg0 _].
    unfold at_index. cbv zeta. rewrite !lerp_value, <- Heq.
    set (p := Z.to_nat (Qfloor v1)).
    assert (Hab : nth p s 0 <= nth (Nat.min (p + 1) (length s - 1)) s 0).
    { apply sorted_nth_le; [exact s_sorted | subst p; lia | lia]. }
    assert (Hg : v1 - inject_Z (Qfloor v1) <= v2 - inject_Z (Qfloor v1)) by lra.
    nra.
  - (* the upper neighbour of [v1] is no later than the lower of [v2] *)
    assert (Hmid : nth (Nat.min (Z.to_nat (Qfloor v1) + 1) (length s - 1)) s 0
                   <= nth (Z.to_nat (Qfloor v2)) s 0).
    { apply sorted_nth_le; [exact s_sorted | lia | lia]. }
    lra.
Qed.

End Interpolation.

Lemma quantile_linear_at_index (a : list Q) (q : Q) :
  np.quantile_linear a q
  = at_index (QSort.sort a) (virtual_index (length a) q).
Proof.
  unfold np.quantile_linear, at_index, virtual_index. cbv zeta.
  now rewrite sort_length.
Qed.

(** A higher percentile of the same data is never smaller. *)
Lemma quantile_linear_mono (a : list Q) (q1 q2 : Q) :
  a <> [] -> 0 <= q1 -> q1 <= q2 -> q2 <= 100 ->
  np.quantile_linear a q1 <= np.quantile_linear a q2.
Proof.
  intros Hne H0 H12 H100.
  assert (Hn : (1 <= length a)%nat) by (destruct a; [congruence | simpl; lia]).
  rewrite !quantile_linear_at_index.
  apply at_index_mono.
  - apply sort_strongly_sorted.
  - unfold in_range. rewrite sort_length.
    apply virtual_index_range; [exact Hn | lra | lra].
  - unfold in_range. rewrite sort_length.
    apply virtual_index_range; [exact Hn | lra | lra].
  - now apply virtual_index_mono.
Qed.

(** The percentile of a single value is that value, whatever [q]. *)
Lemma quantile_linear_single (x q : Q) : np.quantile_linear [x] q == x.
Proof.
  rewrite quantile_linear_at_index.
  change (QSort.sort [x]) with [x]. change (length [x]) with 1%nat.
  assert (Hv : virtual_index 1 q == 0).
  { unfold virtual_index. change (inject_Z (Z.of_nat 1)) with 1. ring. }
  unfold at_index. cbv zeta. rewrite (Qfloor_comp _ _ Hv).
  change (Qfloor 0) with 0%Z. change (Z.to_nat 0) with O.
  cbn [Nat.add Nat.sub Nat.min length nth].
  rewrite lerp_value. ring.
Qed.

Lemma percentile_ok (a : list Q) (q : Q) :
  a <> [] -> Qle_bool 0 q && Qle_bool q 100 = true ->
  np.percentile a q = Ok (np.quantile_linear a q).
Proof.
  intros Hne Hq. unfold np.percentile. rewrite Hq. cbn [negb].
  destruct a; [congruence | reflexivity].
Qed.

Lemma percentile_empty (q : Q) : exists e, np.percentile [] q = Raise e.
Proof.
  unfold np.percentile.
  destruct (negb (Qle_bool 0 q && Qle_bool q 100)); eauto.
Qed.

End Percentile.

(** ** The aggregator *)

Section Aggregator.

Variable inputs : Inputs.

Lemma map_result_ok {A B : Type} (f : A -> result B) (g : A -> B) (xs : list A) :
  Forall (fun x => f x = Ok (g x)) xs -> map_result f xs = Ok (map g xs).
Proof.
  induction 1 as [| x xs Hx _ IH]; [reflexivity |].
  cbn [map_result map]. rewrite Hx. cbn [rbind]. rewrite IH. reflexivity.
Qed.

Lemma combine_map_self {A B : Type} (g : A -> B) (l : list A) :
  combine l (map g l) = map (fun i => (i, g i)) l.
Proof. induction l as [| x l IH]; [reflexivity |]. simpl. now rewrite IH. Qed.

Lemma zip_star_column (rows : list (list Q)) (col : list Q) :
  In col (zip_star rows) -> col <> [].
Proof.
  destruct rows as [| r rest]; [intros [] |].
  unfold zip_star. rewrite in_map_iff. intros (i & <- & _). discriminate.
Qed.

Lemma min_length_uniform (L : nat) (rest : list (list Q)) :
  Forall (fun path => length path = L) rest ->
  fold_right Nat.min L (map (@length Q) rest) = L.
Proof.
  induction 1 as [| r rest Hr _ IH]; [reflexivity |].
  cbn [map fold_right]. rewrite IH, Hr. apply Nat.min_id.
Qed.

(** Trajectories of one length [L] have [L] columns, one per year. *)
Lemma zip_star_uniform (rows : list (list Q)) (L : nat) :
  rows <> [] -> Forall (fun path => length path = L) rows ->
  zip_star rows = map (balances_at rows) (range L).
Proof.
  intros Hne Hall. destruct rows as [| r rest]; [congruence |].
  inversion Hall as [| ? ? Hr Hrest]; subst.
  unfold zip_star. now rewrite min_length_uniform.
Qed.

Lemma enumerate_map_range {B : Type} (g : nat -> B) (L : nat) :
  enumerate (map g (range L)) = map (fun i => (i, g i)) (range L).
Proof.
  unfold enumerate, range. rewrite length_map, length_seq.
  apply combine_map_self.
Qed.

Lemma percentile_row_ok (i : nat) (col : list Q) :
  col <> [] -> percentile_row inputs (i, col) = Ok (row_of inputs (i, col)).
Proof.
  intros Hne. unfold percentile_row.
  rewrite !Percentile.percentile_ok by (exact Hne || reflexivity).
  reflexivity.
Qed.

(** [get_yearly_percentiles] never raises. *)
Lemma get_yearly_percentiles_ok (results : list (list Q)) :
  get_yearly_percentiles results inputs = Ok (table_of inputs results).
Proof.
  unfold get_yearly_percentiles, table_of. cbv zeta.
  rewrite (map_result_ok _ (row_of inputs)); [reflexivity |].
  apply Forall_forall. intros [i col] Hin.
  apply percentile_row_ok. unfold enumerate in Hin.
  apply in_combine_r in Hin. now apply zip_star_column in Hin.
Qed.

Lemma get_confidence_levels_ok (balances : list Q) :
  balances <> [] ->
  get_confidence_levels balances
  = Ok (np.quantile_linear balances (25 # 10),
        np.quantile_linear balances (975 # 10)).
Proof.
  intros Hne. unfold get_confidence_levels.
  rewrite !Percentile.percentile_ok by (exact Hne || reflexivity).
  reflexivity.
Qed.

Lemma get_confidence_levels_empty :
  get_confidence_levels [] = Raise IndexError.
Proof. reflexivity. Qed.

Hypothesis volatility_ok : 0 <= volatility inputs.

(** The loop of [perform_monte_carlo] appends [n] simulated paths. *)
Lemma monte_carlo_loop_ok (n : nat) :
  forall (fb : list Q) (rs : list (list Q)) (mr : list (option Q))
         (st : np.RandomState),
  exists (paths : list (Q * list Q * option Q)) (st' : np.RandomState),
    monte_carlo_loop inputs n (fb, rs, mr) st
    = Ok ((fb ++ map final_of paths, rs ++ map history_of paths,
           mr ++ map mean_of paths), st')
    /\ length paths = n
    /\ Forall (fun p => exists st0, p = path_from inputs st0) paths.
Proof.
  induction n as [| n IH]; intros fb rs mr st.
  - exists [], st. cbn. now rewrite !app_nil_r.
  - cbn [monte_carlo_loop]. unfold bind at 1.
    rewrite perform_simulation_ok by exact volatility_ok.
    destruct (IH (fb ++ [final_of (path_from inputs st)])
                 (rs ++ [history_of (path_from inputs st)])
                 (mr ++ [mean_of (path_from inputs st)])
                 (advance st (years inputs)))
      as (paths & st' & Hrun & Hlen & Hall).
    exists (path_from inputs st :: paths), st'.
    split; [| split].
    + unfold path_from at 1. cbv iota beta.
      unfold path_from, final_of, history_of, mean_of in Hrun |- *.
      cbn [fst snd] in Hrun |- *. rewrite Hrun.
      cbn [map fst snd]. now rewrite <- !app_assoc.
    + cbn [length]. now rewrite Hlen.
    + constructor; [now exists st | exact Hall].
Qed.

(** With at least one path and a volatility numpy accepts, a run completes. *)
Lemma perform_monte_carlo_ok (n : nat) (st : np.RandomState) :
  (1 <= n)%nat ->
  exists (paths : list (Q * list Q * option Q)) (st' : np.RandomState),
    perform_monte_carlo inputs n st
    = Ok (mkSimulationResult
            (map final_of paths) (map history_of paths)
            (table_of inputs (map history_of paths))
            (np.quantile_linear (map final_of paths) (25 # 10))
            (np.quantile_linear (map final_of paths) (975 # 10))
            (map mean_of paths), st')
    /\ length paths = n
    /\ Forall (fun p => exists st0, p = path_from inputs st0) paths.
Proof.
  intros Hn.
  destruct (monte_carlo_loop_ok n [] [] [] st) as (paths & st' & Hrun & Hlen & Hall).
  exists paths, st'. split; [| now split].
  unfold perform_monte_carlo, bind. rewrite Hrun. cbn [app].
  rewrite get_confidence_levels_ok.
  2:{ destruct paths; [simpl in Hlen; lia | discriminate]. }
  cbn [lift]. rewrite get_yearly_percentiles_ok. reflexivity.
Qed.

End Aggregator.

(** ** The percentile table of trajectories of one length *)

Section Table.

Variable inputs : Inputs.

Lemma nth_map_range (f : nat -> Q) (L i : nat) :
  (i < L)%nat -> nth i (map f (range L)) 0 = f i.
Proof.
  intros Hi. unfold range.
  rewrite (nth_indep _ 0 (f O)) by now rewrite length_map, length_seq.
  rewrite map_nth, seq_nth by exact Hi. reflexivity.
Qed.

Lemma table_uniform (results : list (list Q)) (L : nat) :
  results <> [] -> Forall (fun path => length path = L) results ->
  table_of inputs results
  = frame_of_rows
      (map (fun i => row_of inputs (i, balances_at results i)) (range L)).
Proof.
  intros Hne Hall. unfold table_of.
  rewrite (zip_star_uniform _ L Hne Hall), enumerate_map_range, map_map.
  reflexivity.
Qed.

Lemma table_uniform_years (results : list (list Q)) (L : nat) :
  results <> [] -> Forall (fun path => length path = L) results ->
  col_year (table_of inputs results) = range L.
Proof.
  intros Hne Hall. rewrite (table_uniform _ L Hne Hall).
  unfold frame_of_rows. cbn [col_year]. rewrite map_map. cbn [row_of row_year fst].
  apply map_id.
Qed.

Lemma table_uniform_invested (results : list (list Q)) (L : nat) :
  results <> [] -> Forall (fun path => length path = L) results ->
  col_invested (table_of inputs results) = map (invested_by inputs) (range L).
Proof.
  intros Hne Hall. rewrite (table_uniform _ L Hne Hall).
  unfold frame_of_rows. cbn [col_invested]. rewrite map_map. reflexivity.
Qed.

(** The entries of row [i] are the percentiles of the balances at year [i]. *)
Lemma table_uniform_row (results : list (list Q)) (L i : nat) :
  results <> [] -> Forall (fun path => length path = L) results ->
  (i < L)%nat ->
  nth i (col_5th (table_of inputs results)) 0
  = np.quantile_linear (balances_at results i) 5 /\
  nth i (col_25th (table_of inputs results)) 0
  = np.quantile_linear (balances_at results i) 25 /\
  nth i (col_median (table_of inputs results)) 0
  = np.quantile_linear (balances_at results i) 50 /\
  nth i (col_75th (table_of inputs results)) 0
  = np.quantile_linear (balances_at results i) 75 /\
  nth i (col_95th (table_of inputs results)) 0
  = np.quantile_linear (balances_at results i) 95.
Proof.
  intros Hne Hall Hi. rewrite (table_uniform _ L Hne Hall).
  unfold frame_of_rows.
  cbn [col_5th col_25th col_median col_75th col_95th].
  rewrite !map_map. cbn [row_of row_5th row_25th row_median row_75th row_95th snd].
  repeat split;
    exact (nth_map_range (fun k => np.quantile_linear (balances_at results k) _) L i Hi).
Qed.

Lemma balances_at_inhabited (results : list (list Q)) (i : nat) :
  results <> [] -> balances_at results i <> [].
Proof. destruct results; [congruence | discriminate]. Qed.

End Table.

(** ** The claims about the path simulator *)

Lemma sum_fold_right (xs : list Q) (a : Q) :
  fold_left Qplus xs a == a + fold_right Qplus 0 xs.
Proof.
  revert a. induction xs as [| x xs IH]; intros a; cbn [fold_left fold_right].
  - ring.
  - rewrite IH. ring.
Qed.

Lemma mean_average (xs : list Q) :
  xs <> [] -> exists m, np.mean xs = Some m /\ m == average xs.
Proof.
  intros Hne. destruct xs as [| x xs]; [congruence |].
  eexists. split; [reflexivity |].
  unfold np.sum, average. rewrite sum_fold_right.
  now rewrite Qplus_0_l.
Qed.

(** C1.  For every parameters and every sequence of return multipliers of
    the length of the horizon, the path simulator returns a trajectory whose
    value at year 0 is the initial investment, and whose value at year
    [i + 1] comes from the value at year [i] by twelve monthly steps (add the
    monthly contribution, then multiply by [1 + (multiplier_i - 1) / 12])
    followed by the yearly bonus, added once. *)
Theorem C1_trajectory_recurrence (inputs : Inputs) (returns : list Q) :
  length returns = years inputs ->
  exists (balance : Q) (history : list Q) (mean_return : option Q),
    simulate_path inputs returns = Ok (balance, history, mean_return) /\
    nth_error history 0 = Some (initial_investment inputs) /\
    forall i, (i < years inputs)%nat ->
      exists multiplier value,
        nth_error returns i = Some multiplier /\
        nth_error history i = Some value /\
        nth_error history (S i)
        = Some (monthly_steps 12 (monthly_contribution inputs)
                  ((multiplier - 1) / 12) value
                + yearly_bonus inputs).
Proof.
  intros Hlen. do 3 eexists.
  split; [apply simulate_path_ok, Hlen |].
  split; [apply trajectory_nth_0 |].
  intros i Hi.
  destruct (nth_error returns i) as [m |] eqn:Hm.
  2:{ apply nth_error_None in Hm. lia. }
  destruct (trajectory_nth_step inputs returns (initial_investment inputs) i m Hm)
    as (v & Hv & Hnext).
  exists m, v. repeat split; assumption.
Qed.

Lemma C1_trajectory_recurrence_witness :
  exists (balance : Q) (history : list Q) (mean_return : option Q),
    simulate_path default_inputs [108 # 100] = Ok (balance, history, mean_return) /\
    nth_error history 0 = Some (initial_investment default_inputs) /\
    forall i, (i < years default_inputs)%nat ->
      exists multiplier value,
        nth_error [108 # 100] i = Some multiplier /\
        nth_error history i = Some value /\
        nth_error history (S i)
        = Some (monthly_steps 12 (monthly_contribution default_inputs)
                  ((multiplier - 1) / 12) value
                + yearly_bonus default_inputs).
Proof.
  apply (C1_trajectory_recurrence default_inputs [108 # 100]). reflexivity.
Defined.

(** The scenario of the specification: 50000 at the start, 1000 a month, a
    bonus of 5000, one year at the multiplier 1.08.  The recurrence leaves
    71682.90, cut to the cent. *)
Example one_year_at_eight_percent :
  exists balance mean_return,
    simulate_path default_inputs [108 # 100]
    = Ok (balance, [50000; balance], mean_return) /\
    Qfloor (balance * 100) = 7168290%Z.
Proof.
  do 2 eexists. split.
  - vm_compute. reflexivity.
  - vm_compute. reflexivity.
Qed.

(** C9.  For every sequence of return multipliers of length [H >= 1], the
    mean return the path simulator reports is the arithmetic average of the
    multipliers, minus one, times one hundred. *)
Theorem C9_mean_return (inputs : Inputs) (returns : list Q) :
  (1 <= years inputs)%nat -> length returns = years inputs ->
  exists (balance : Q) (history : list Q) (mean_return : Q),
    simulate_path inputs returns = Ok (balance, history, Some mean_return) /\
    mean_return == (average returns - 1) * 100.
Proof.
  intros HH Hlen.
  assert (Hne : returns <> []) by (destruct returns; [simpl in Hlen; lia | discriminate]).
  destruct (mean_average returns Hne) as (m & Hm & Havg).
  exists (last (trajectory inputs (initial_investment inputs) returns)
               (initial_investment inputs)),
         (trajectory inputs (initial_investment inputs) returns),
         ((m - 1) * 100).
  split.
  - rewrite simulate_path_ok by exact Hlen. now rewrite Hm.
  - now rewrite Havg.
Qed.

Lemma C9_mean_return_witness :
  exists (balance : Q) (history : list Q) (mean_return : Q),
    simulate_path default_inputs [108 # 100] = Ok (balance, history, Some mean_return) /\
    mean_return == (average [108 # 100] - 1) * 100.
Proof.
  apply (C9_mean_return default_inputs [108 # 100]).
  - simpl. lia.
  - reflexivity.
Defined.

(** C10.  The final balance the path simulator returns is the last element,
    at index [H], of the trajectory it returns; and in the result of a run
    the [k]-th final balance is the element at index [H] of the [k]-th
    trajectory, for every path [k]. *)
Theorem C10_final_balance_is_last (inputs : Inputs) :
  (forall returns : list Q,
      length returns = years inputs ->
      exists balance history mean_return,
        simulate_path inputs returns = Ok (balance, history, mean_return) /\
        length history = S (years inputs) /\
        nth_error history (years inputs) = Some balance) /\
  (forall (n : nat) (st : np.RandomState),
      0 <= volatility inputs -> (1 <= n)%nat ->
      exists res st',
        perform_monte_carlo inputs n st = Ok (res, st') /\
        forall k, (k < n)%nat ->
          exists balance history,
            nth_error (final_balances res) k = Some balance /\
            nth_error (results res) k = Some history /\
            nth_error history (years inputs) = Some balance).
Proof.
  split.
  - intros returns Hlen. do 3 eexists.
    split; [apply simulate_path_ok, Hlen |].
    split; [now rewrite trajectory_length, Hlen |].
    rewrite <- Hlen. apply trajectory_final.
  - intros n st Hvol Hn.
    destruct (perform_monte_carlo_ok inputs Hvol n st Hn)
      as (paths & st' & Hrun & Hlen & Hall).
    eexists _, st'. split; [exact Hrun |].
    cbn [final_balances results]. intros k Hk.
    destruct (nth_error paths k) as [p |] eqn:Hp.
    2:{ apply nth_error_None in Hp. lia. }
    exists (final_of p), (history_of p).
    rewrite !nth_error_map, Hp. repeat split.
    rewrite Forall_forall in Hall.
    destruct (Hall p (nth_error_In _ _ Hp)) as (st0 & ->).
    unfold path_from, history_of, final_of. cbn [fst snd].
    rewrite <- (drawn_returns_length inputs st0) at 1.
    apply trajectory_final.
Qed.

Lemma C10_final_balance_is_last_witness :
  exists res st',
    perform_monte_carlo default_inputs 3 flat_source = Ok (res, st') /\
    forall k, (k < 3)%nat ->
      exists balance history,
        nth_error (final_balances res) k = Some balance /\
        nth_error (results res) k = Some history /\
        nth_error history (years default_inputs) = Some balance.
Proof.
  apply (proj2 (C10_final_balance_is_last default_inputs) 3%nat flat_source).
  - unfold Qle. simpl. lia.
  - lia.
Defined.

(** ** The claims about the aggregator *)

Lemma path_from_shape (inputs : Inputs) (st : np.RandomState) :
  length (history_of (path_from inputs st)) = S (years inputs) /\
  nth_error (history_of (path_from inputs st)) 0
  = Some (initial_investment inputs).
Proof.
  unfold path_from, history_of. cbn [fst snd]. split.
  - now rewrite trajectory_length, drawn_returns_length.
  - apply trajectory_nth_0.
Qed.

(** C2.  For every parameters with a volatility that is not negative and
    every path count [N >= 1], a run produces exactly [N] final balances,
    [N] trajectories and [N] mean returns, and every trajectory has length
    [H + 1] and starts with the initial investment. *)
Theorem C2_run_shape (inputs : Inputs) (n : nat) (st : np.RandomState) :
  0 <= volatility inputs -> (1 <= n)%nat ->
  exists res st',
    perform_monte_carlo inputs n st = Ok (res, st') /\
    length (final_balances res) = n /\
    length (results res) = n /\
    length (mean_returns res) = n /\
    Forall (fun history =>
              length history = S (years inputs) /\
              nth_error history 0 = Some (initial_investment inputs))
           (results res).
Proof.
  intros Hvol Hn.
  destruct (perform_monte_carlo_ok inputs Hvol n st Hn)
    as (paths & st' & Hrun & Hlen & Hall).
  eexists _, st'. split; [exact Hrun |].
  cbn [final_balances results mean_returns].
  rewrite !length_map. repeat split; try exact Hlen.
  apply Forall_map. eapply Forall_impl; [| exact Hall].
  intros p (st0 & ->). apply path_from_shape.
Qed.

Lemma C2_run_shape_witness :
  exists res st',
    perform_monte_carlo default_inputs 4 flat_source = Ok (res, st') /\
    length (final_balances res) = 4%nat /\
    length (results res) = 4%nat /\
    length (mean_returns res) = 4%nat /\
    Forall (fun history =>
              length history = S (years default_inputs) /\
              nth_error history 0 = Some (initial_investment default_inputs))
           (results res).
Proof.
  apply (C2_run_shape default_inputs 4 flat_source).
  - unfold Qle. simpl. lia.
  - lia.
Defined.

Lemma results_uniform (inputs : Inputs) (paths : list (Q * list Q * option Q)) :
  Forall (fun p => exists st0, p = path_from inputs st0) paths ->
  Forall (fun path => length path = S (years inputs)) (map history_of paths).
Proof.
  intros Hall. apply Forall_map. eapply Forall_impl; [| exact Hall].
  intros p (st0 & ->). apply path_from_shape.
Qed.

Lemma combine_seq_nth_error {A : Type} (xs : list A) :
  forall (a i : nat) (x : A),
    nth_error xs i = Some x ->
    nth_error (combine (seq a (length xs)) xs) i = Some ((a + i)%nat, x).
Proof.
  induction xs as [| y xs IH]; intros a [| i] x Hx; simpl in Hx;
    try discriminate.
  - injection Hx as ->. simpl. now rewrite Nat.add_0_r.
  - simpl. rewrite (IH (S a) i x Hx). do 2 f_equal. lia.
Qed.

Lemma enumerate_nth_error {A : Type} (xs : list A) (i : nat) (x : A) :
  nth_error xs i = Some x -> nth_error (enumerate xs) i = Some (i, x).
Proof. intros Hx. unfold enumerate, range. now apply combine_seq_nth_error. Qed.

Lemma enumerate_length {A : Type} (xs : list A) :
  length (enumerate xs) = length xs.
Proof.
  unfold enumerate, range. rewrite length_combine, length_seq. apply Nat.min_id.
Qed.

(** C3.  The invested column of the yearly percentile table holds, at every
    year index [i], [initial_investment + (monthly_contribution * 12 +
    yearly_bonus) * i]: whatever trajectories the table is computed from, and
    so, in a run, whatever the state of the random source. *)
Theorem C3_invested_column (inputs : Inputs) :
  (forall results : list (list Q),
      exists df,
        get_yearly_percentiles results inputs = Ok df /\
        length (col_invested df) = length (col_year df) /\
        forall i, (i < length (col_year df))%nat ->
          nth_error (col_year df) i = Some i /\
          nth_error (col_invested df) i
          = Some (initial_investment inputs
                  + (monthly_contribution inputs * 12 + yearly_bonus inputs)
                    * inject_Z (Z.of_nat i))) /\
  (forall (n : nat) (st : np.RandomState),
      0 <= volatility inputs -> (1 <= n)%nat ->
      exists res st',
        perform_monte_carlo inputs n st = Ok (res, st') /\
        col_year (yearly_percentiles res) = range (S (years inputs)) /\
        col_invested (yearly_percentiles res)
        = map (invested_by inputs) (range (S (years inputs)))).
Proof.
  split.
  - intros results. exists (table_of inputs results).
    split; [apply get_yearly_percentiles_ok |].
    unfold table_of, frame_of_rows. cbn [col_invested col_year].
    rewrite !length_map, enumerate_length. split; [reflexivity |].
    intros i Hi.
    destruct (nth_error (zip_star results) i) as [col |] eqn:Hcol.
    2:{ apply nth_error_None in Hcol. lia. }
    rewrite !nth_error_map, (enumerate_nth_error _ _ _ Hcol).
    split; reflexivity.
  - intros n st Hvol Hn.
    destruct (perform_monte_carlo_ok inputs Hvol n st Hn)
      as (paths & st' & Hrun & Hlen & Hall).
    eexists _, st'. split; [exact Hrun |].
    cbn [yearly_percentiles].
    assert (Hne : map history_of paths <> []).
    { destruct paths; [simpl in Hlen; lia | discriminate]. }
    split.
    + apply table_uniform_years; [exact Hne | now apply results_uniform].
    + apply table_uniform_invested; [exact Hne | now apply results_uniform].
Qed.

Lemma C3_invested_column_witness :
  exists res st',
    perform_monte_carlo default_inputs 2 flat_source = Ok (res, st') /\
    col_year (yearly_percentiles res) = range (S (years default_inputs)) /\
    col_invested (yearly_percentiles res)
    = map (invested_by default_inputs) (range (S (years default_inputs))).
Proof.
  apply (proj2 (C3_invested_column default_inputs) 2%nat flat_source).
  - unfold Qle. simpl. lia.
  - lia.
Defined.

(** C4.  For every collection of trajectories of one length that is not
    empty, the table has a row per year, the entries of the row are the
    5th, 25th, 50th, 75th and 95th percentile of the balances of all paths
    at that year, and 5th <= 25th <= median <= 75th <= 95th. *)
Theorem C4_percentiles_ordered (inputs : Inputs) (results : list (list Q))
    (L : nat) :
  results <> [] -> Forall (fun path => length path = L) results ->
  exists df,
    get_yearly_percentiles results inputs = Ok df /\
    col_year df = range L /\
    forall i, (i < L)%nat ->
      row_percentiles df i (balances_at results i) /\ row_ordered df i.
Proof.
  intros Hne Hall. exists (table_of inputs results).
  split; [apply get_yearly_percentiles_ok |].
  split; [now apply table_uniform_years |].
  intros i Hi.
  destruct (table_uniform_row inputs results L i Hne Hall Hi)
    as (E5 & E25 & E50 & E75 & E95).
  pose proof (balances_at_inhabited results i Hne) as Hdata.
  split.
  - unfold row_percentiles. rewrite E5, E25, E50, E75, E95.
    repeat split; apply Percentile.percentile_ok;
      solve [exact Hdata | reflexivity].
  - unfold row_ordered. rewrite E5, E25, E50, E75, E95.
    repeat split; apply Percentile.quantile_linear_mono;
      solve [exact Hdata | lra].
Qed.

Lemma C4_percentiles_ordered_witness :
  exists df,
    get_yearly_percentiles [[10; 40]; [10; 20]; [10; 30]] default_inputs = Ok df /\
    col_year df = range 2 /\
    forall i, (i < 2)%nat ->
      row_percentiles df i (balances_at [[10; 40]; [10; 20]; [10; 30]] i) /\
      row_ordered df i.
Proof.
  apply (C4_percentiles_ordered default_inputs [[10; 40]; [10; 20]; [10; 30]] 2).
  - discriminate.
  - repeat constructor.
Defined.

(** In a run that completes, the table and the confidence bounds of the
    result are those of its trajectories and of its final balances. *)
Lemma perform_monte_carlo_statistics (inputs : Inputs) (n : nat)
    (st : np.RandomState) :
  0 <= volatility inputs -> (1 <= n)%nat ->
  exists res st',
    perform_monte_carlo inputs n st = Ok (res, st') /\
    length (results res) = n /\
    length (final_balances res) = n /\
    get_yearly_percentiles (results res) inputs = Ok (yearly_percentiles res) /\
    get_confidence_levels (final_balances res)
    = Ok (lower_confidence res, upper_confidence res).
Proof.
  intros Hvol Hn.
  destruct (perform_monte_carlo_ok inputs Hvol n st Hn)
    as (paths & st' & Hrun & Hlen & _).
  eexists _, st'. split; [exact Hrun |].
  cbn [results final_balances yearly_percentiles lower_confidence upper_confidence].
  rewrite !length_map.
  split; [exact Hlen |]. split; [exact Hlen |].
  split; [apply get_yearly_percentiles_ok |].
  apply get_confidence_levels_ok.
  destruct paths; [simpl in Hlen; lia | discriminate].
Qed.

(** C5.  For every collection of final balances that is not empty, the
    confidence interval has the 2.5th percentile as lower bound and the
    97.5th percentile as upper bound, and lower <= median <= upper; and the
    bounds in the result of a run are this interval of its final balances. *)
Theorem C5_confidence_interval :
  (forall balances : list Q,
      balances <> [] ->
      exists lower median upper,
        get_confidence_levels balances = Ok (lower, upper) /\
        np.percentile balances (25 # 10) = Ok lower /\
        np.percentile balances (975 # 10) = Ok upper /\
        np.percentile balances 50 = Ok median /\
        lower <= median /\ median <= upper) /\
  (forall (inputs : Inputs) (n : nat) (st : np.RandomState),
      0 <= volatility inputs -> (1 <= n)%nat ->
      exists res st',
        perform_monte_carlo inputs n st = Ok (res, st') /\
        final_balances res <> [] /\
        get_confidence_levels (final_balances res)
        = Ok (lower_confidence res, upper_confidence res)).
Proof.
  split.
  - intros balances Hne.
    exists (np.quantile_linear balances (25 # 10)),
           (np.quantile_linear balances 50),
           (np.quantile_linear balances (975 # 10)).
    split; [now apply get_confidence_levels_ok |].
    repeat split;
      try (apply Percentile.percentile_ok; solve [exact Hne | reflexivity]);
      apply Percentile.quantile_linear_mono; solve [exact Hne | lra].
  - intros inputs n st Hvol Hn.
    destruct (perform_monte_carlo_statistics inputs n st Hvol Hn)
      as (res & st' & Hrun & _ & Hlen & _ & Hconf).
    exists res, st'. split; [exact Hrun |]. split; [| exact Hconf].
    destruct (final_balances res); [simpl in Hlen; lia | discriminate].
Qed.

Lemma C5_confidence_interval_witness :
  exists lower median upper,
    get_confidence_levels [30; 10; 20] = Ok (lower, upper) /\
    np.percentile [30; 10; 20] (25 # 10) = Ok lower /\
    np.percentile [30; 10; 20] (975 # 10) = Ok upper /\
    np.percentile [30; 10; 20] 50 = Ok median /\
    lower <= median /\ median <= upper.
Proof.
  apply (proj1 C5_confidence_interval [30; 10; 20]). discriminate.
Defined.

(** ** Boundaries: no path, no year, one path, fields out of their domain *)

(** Every percentile of [n >= 1] copies of one value is that value. *)
Lemma quantile_linear_repeat (c : Q) (n : nat) (q : Q) :
  (1 <= n)%nat -> 0 <= q -> q <= 100 ->
  np.quantile_linear (repeat c n) q == c.
Proof.
  intros Hn H0 H100.
  rewrite Percentile.quantile_linear_at_index.
  set (s := QSort.sort (repeat c n)).
  assert (Hlen : length s = n).
  { subst s. now rewrite Percentile.sort_length, repeat_length. }
  assert (Hall : forall k, (k < n)%nat -> nth k s 0 = c).
  { intros k Hk. apply (repeat_spec n).
    apply (Permutation_in _ (Permutation_sym (QSort.Permuted_sort (repeat c n)))).
    apply nth_In. fold s. lia. }
  assert (Hr : in_range s (virtual_index (length (repeat c n)) q)).
  { unfold in_range. rewrite Hlen, repeat_length.
    now apply Percentile.virtual_index_range. }
  pose proof (Percentile.at_index_between s
                (Percentile.sort_strongly_sorted (repeat c n)) _ Hr) as [Hlo Hhi].
  destruct Hr as [Hv0 Hvn].
  pose proof (Percentile.floor_position _ _ Hv0 Hvn) as Hp.
  rewrite Hlen in Hp.
  rewrite Hall in Hlo by lia. rewrite Hlen, Hall in Hhi by lia.
  lra.
Qed.

Lemma Forall_eq_repeat {A : Type} (c : A) (l : list A) :
  Forall (fun x => x = c) l -> l = repeat c (length l).
Proof. induction 1 as [| x l -> _ IH]; simpl; [reflexivity | now rewrite <- IH]. Qed.

Lemma path_from_zero_horizon (inputs : Inputs) (st : np.RandomState) :
  years inputs = 0%nat ->
  path_from inputs st
  = (initial_investment inputs, [initial_investment inputs], None).
Proof. intros H0. unfold path_from, drawn_returns. now rewrite H0. Qed.

Lemma perform_monte_carlo_no_path (inputs : Inputs) (st : np.RandomState) :
  perform_monte_carlo inputs 0 st = Raise IndexError.
Proof. reflexivity. Qed.

(** C6, as the specification states it, fails on the code: with no path the
    confidence interval is asked of empty data and numpy raises. *)
Lemma C6_no_path_raises :
  perform_monte_carlo default_inputs 0 flat_source = Raise IndexError.
Proof. apply perform_monte_carlo_no_path. Qed.

(** C6, amended.  With a horizon of zero years, a volatility that is not
    negative and at least one path, the aggregator does not fail: every
    trajectory is the single point [initial_investment], every final balance
    is the initial investment, no mean return is a number, and the table has
    the single row of year 0, all of whose percentiles, like both confidence
    bounds, equal the initial investment. *)
Theorem C6_zero_horizon_degenerates (inputs : Inputs) (n : nat)
    (st : np.RandomState) :
  years inputs = 0%nat -> 0 <= volatility inputs -> (1 <= n)%nat ->
  exists res st',
    perform_monte_carlo inputs n st = Ok (res, st') /\
    final_balances res = repeat (initial_investment inputs) n /\
    results res = repeat [initial_investment inputs] n /\
    mean_returns res = repeat None n /\
    col_year (yearly_percentiles res) = [0%nat] /\
    col_invested (yearly_percentiles res) = [invested_by inputs 0] /\
    row_collapses (yearly_percentiles res) 0 (initial_investment inputs) /\
    lower_confidence res == initial_investment inputs /\
    upper_confidence res == initial_investment inputs.
Proof.
  intros H0 Hvol Hn.
  destruct (perform_monte_carlo_ok inputs Hvol n st Hn)
    as (paths & st' & Hrun & Hlen & Hall).
  assert (Hpaths : paths
                   = repeat (initial_investment inputs,
                             [initial_investment inputs], None) n).
  { rewrite <- Hlen. apply Forall_eq_repeat.
    eapply Forall_impl; [| exact Hall].
    intros p (st0 & ->). now apply path_from_zero_horizon. }
  clear Hall. subst paths.
  rewrite !map_repeat in Hrun.
  unfold final_of, history_of, mean_of in Hrun. cbn [fst snd] in Hrun.
  eexists _, st'. split; [exact Hrun |].
  cbn [final_balances results mean_returns yearly_percentiles
       lower_confidence upper_confidence].
  set (init := initial_investment inputs).
  assert (Hne : repeat [init] n <> []) by (destruct n; [lia | discriminate]).
  assert (Huni : Forall (fun path => length path = 1%nat) (repeat [init] n)).
  { apply Forall_forall. intros p Hp. now rewrite (repeat_spec _ _ _ Hp). }
  assert (Hcol : balances_at (repeat [init] n) 0 = repeat init n).
  { unfold balances_at. now rewrite map_repeat. }
  refine (conj eq_refl (conj eq_refl (conj eq_refl
            (conj _ (conj _ (conj _ (conj _ _))))))).
  - now apply (table_uniform_years inputs _ 1).
  - now apply (table_uniform_invested inputs _ 1).
  - destruct (table_uniform_row inputs _ 1 0 Hne Huni ltac:(lia))
      as (E5 & E25 & E50 & E75 & E95).
    unfold row_collapses. rewrite E5, E25, E50, E75, E95, Hcol.
    repeat split; apply quantile_linear_repeat; solve [exact Hn | lra].
  - apply quantile_linear_repeat; solve [exact Hn | lra].
  - apply quantile_linear_repeat; solve [exact Hn | lra].
Qed.

Lemma C6_zero_horizon_degenerates_witness :
  exists res st',
    perform_monte_carlo zero_horizon_inputs 3 flat_source = Ok (res, st') /\
    final_balances res = repeat (initial_investment zero_horizon_inputs) 3 /\
    results res = repeat [initial_investment zero_horizon_inputs] 3 /\
    mean_returns res = repeat None 3 /\
    col_year (yearly_percentiles res) = [0%nat] /\
    col_invested (yearly_percentiles res) = [invested_by zero_horizon_inputs 0] /\
    row_collapses (yearly_percentiles res) 0 (initial_investment zero_horizon_inputs) /\
    lower_confidence res == initial_investment zero_horizon_inputs /\
    upper_confidence res == initial_investment zero_horizon_inputs.
Proof.
  apply (C6_zero_horizon_degenerates zero_horizon_inputs 3 flat_source).
  - reflexivity.
  - unfold Qle. simpl. lia.
  - lia.
Defined.

(** C7, as the specification states it, fails on the code: a negative
    initial investment is outside the declared domain, and the run
    completes with a trajectory that starts from it. *)
Lemma C7_negative_investment_accepted :
  initial_investment indebted_inputs < 0 /\
  exists res st',
    perform_monte_carlo indebted_inputs 1 flat_source = Ok (res, st') /\
    exists final, results res = [[initial_investment indebted_inputs; final]].
Proof.
  split; [reflexivity |].
  do 2 eexists. split; [vm_compute; reflexivity |].
  eexists. reflexivity.
Qed.

(** C7, amended.  With a negative volatility and at least one path, the
    return generator of the first path raises [ValueError], so does the path
    simulator before it computes any balance, and the run returns the
    exception and no result. *)
Theorem C7_negative_volatility_rejected (inputs : Inputs) (n : nat)
    (st : np.RandomState) :
  volatility inputs < 0 -> (1 <= n)%nat ->
  get_random_returns (years inputs) (estimated_roi inputs) (volatility inputs) st
  = Raise ValueError /\
  perform_simulation inputs st = Raise ValueError /\
  perform_monte_carlo inputs n st = Raise ValueError.
Proof.
  intros Hvol Hn.
  pose proof (perform_simulation_rejects inputs st Hvol) as Hsim.
  repeat split.
  - unfold get_random_returns, bind, np.random_normal.
    destruct (Qle_bool 0 (volatility inputs)) eqn:E; [| reflexivity].
    apply Qle_bool_iff in E. lra.
  - exact Hsim.
  - destruct n as [| n]; [lia |].
    unfold perform_monte_carlo. cbn [monte_carlo_loop].
    unfold bind. now rewrite Hsim.
Qed.

Lemma C7_negative_volatility_rejected_witness :
  get_random_returns (years negative_volatility_inputs)
    (estimated_roi negative_volatility_inputs)
    (volatility negative_volatility_inputs) flat_source
  = Raise ValueError /\
  perform_simulation negative_volatility_inputs flat_source = Raise ValueError /\
  perform_monte_carlo negative_volatility_inputs 5 flat_source = Raise ValueError.
Proof.
  apply (C7_negative_volatility_rejected negative_volatility_inputs 5 flat_source).
  - reflexivity.
  - lia.
Defined.

(** C8.  For a single path, the table has a row per year of the path, and
    at every year each of the five percentiles is the balance of that path
    at that year; so it is in a run with exactly one path. *)
Theorem C8_single_path (inputs : Inputs) :
  (forall path : list Q,
      exists df,
        get_yearly_percentiles [path] inputs = Ok df /\
        col_year df = range (length path) /\
        forall i, (i < length path)%nat ->
          row_percentiles df i [nth i path 0] /\
          row_collapses df i (nth i path 0)) /\
  (forall st : np.RandomState,
      0 <= volatility inputs ->
      exists res st' path,
        perform_monte_carlo inputs 1 st = Ok (res, st') /\
        results res = [path] /\
        length path = S (years inputs) /\
        forall i, (i <= years inputs)%nat ->
          row_collapses (yearly_percentiles res) i (nth i path 0)).
Proof.
  assert (Hfun : forall path : list Q,
            col_year (table_of inputs [path]) = range (length path) /\
            forall i, (i < length path)%nat ->
              row_percentiles (table_of inputs [path]) i [nth i path 0] /\
              row_collapses (table_of inputs [path]) i (nth i path 0)).
  { intros path.
    assert (Hne : [path] <> []) by discriminate.
    assert (Huni : Forall (fun p => length p = length path) [path])
      by (constructor; [reflexivity | constructor]).
    split; [now apply table_uniform_years |].
    intros i Hi.
    destruct (table_uniform_row inputs [path] (length path) i Hne Huni Hi)
      as (E5 & E25 & E50 & E75 & E95).
    change (balances_at [path] i) with [nth i path 0] in *.
    split.
    - unfold row_percentiles. rewrite E5, E25, E50, E75, E95.
      repeat split; apply Percentile.percentile_ok;
        solve [discriminate | reflexivity].
    - unfold row_collapses. rewrite E5, E25, E50, E75, E95.
      repeat split; apply Percentile.quantile_linear_single. }
  split.
  - intros path. exists (table_of inputs [path]).
    split; [apply get_yearly_percentiles_ok | apply Hfun].
  - intros st Hvol.
    destruct (perform_monte_carlo_ok inputs Hvol 1 st (le_n 1))
      as (paths & st' & Hrun & Hlen & Hall).
    destruct paths as [| p [| ? ?]]; try discriminate.
    inversion Hall as [| ? ? (st0 & ->) _]; subst.
    eexists _, st', (history_of (path_from inputs st0)).
    split; [exact Hrun |].
    cbn [results yearly_percentiles map].
    destruct (path_from_shape inputs st0) as [Hshape _].
    split; [reflexivity |]. split; [exact Hshape |].
    intros i Hi. apply Hfun. rewrite Hshape. lia.
Qed.

Lemma C8_single_path_witness :
  exists res st' path,
    perform_monte_carlo default_inputs 1 flat_source = Ok (res, st') /\
    results res = [path] /\
    length path = S (years default_inputs) /\
    forall i, (i <= years default_inputs)%nat ->
      row_collapses (yearly_percentiles res) i (nth i path 0).
Proof.
  apply (proj2 (C8_single_path default_inputs) flat_source).
  unfold Qle. simpl. lia.
Defined.

(** * Further properties of the engine *)

(** ** How a run consumes the random source *)

(** What path [k] of a run started in state [st] contributes. *)
Definition kth_path (inputs : Inputs) (st : np.RandomState) (k : nat)
  : Q * list Q * option Q :=
  path_from inputs (advance st (k * years inputs)).

Lemma advance_advance (st : np.RandomState) (a b : nat) :
  advance (advance st a) b = advance st (a + b).
Proof. unfold advance. cbn [np.supply np.cursor]. now rewrite Nat.add_assoc. Qed.

Lemma advance_zero (st : np.RandomState) : advance st 0 = st.
Proof. destruct st. unfold advance. cbn. now rewrite Nat.add_0_r. Qed.

Lemma kth_path_shift (inputs : Inputs) (st : np.RandomState) (k : nat) :
  kth_path inputs (advance st (years inputs)) k = kth_path inputs st (S k).
Proof. unfold kth_path. now rewrite advance_advance. Qed.

Lemma map_range_succ {B : Type} (f : nat -> B) (n : nat) :
  map f (range (S n)) = f O :: map (fun k => f (S k)) (range n).
Proof.
  unfold range. cbn [seq map]. f_equal.
  rewrite <- seq_shift, map_map. reflexivity.
Qed.

(** The loop of [perform_monte_carlo], path by path: path [k] reads the
    [years] variates that follow those of path [k - 1]. *)
Lemma monte_carlo_loop_paths (inputs : Inputs) (n : nat) :
  0 <= volatility inputs ->
  forall (fb : list Q) (rs : list (list Q)) (mr : list (option Q))
         (st : np.RandomState),
    monte_carlo_loop inputs n (fb, rs, mr) st
    = Ok ((fb ++ map (fun k => final_of (kth_path inputs st k)) (range n),
           rs ++ map (fun k => history_of (kth_path inputs st k)) (range n),
           mr ++ map (fun k => mean_of (kth_path inputs st k)) (range n)),
          advance st (n * years inputs)).
Proof.
  intros Hvol. induction n as [| n IH]; intros fb rs mr st.
  - cbn. now rewrite !app_nil_r, advance_zero.
  - cbn [monte_carlo_loop]. unfold bind at 1.
    rewrite perform_simulation_ok by exact Hvol.
    unfold path_from at 1. cbv iota beta.
    rewrite IH, advance_advance.
    rewrite !(map_range_succ _ n), <- !app_assoc. cbn [app].
    replace (kth_path inputs st 0) with (path_from inputs st)
      by (unfold kth_path; now rewrite Nat.mul_0_l, advance_zero).
    do 2 f_equal.
    f_equal; [f_equal |]; f_equal; f_equal;
      try (apply map_ext; intros k; now rewrite kth_path_shift).
Qed.

(** X1.  A run of [n >= 1] paths with a volatility that is not negative
    reads exactly [n * years] variates from the random source, in order and
    without reuse: path [k] is the trajectory of the multipliers
    [1 + estimated_roi + volatility * z] for the [years] variates [z] at
    positions [cursor + k * years] and following, and the source is left
    [n * years] positions further. *)
Theorem X1_run_reads_fresh_draws (inputs : Inputs) (n : nat)
    (st : np.RandomState) :
  0 <= volatility inputs -> (1 <= n)%nat ->
  exists res st',
    perform_monte_carlo inputs n st = Ok (res, st') /\
    np.supply st' = np.supply st /\
    np.cursor st' = (np.cursor st + n * years inputs)%nat /\
    results res
    = map (fun k =>
             trajectory inputs (initial_investment inputs)
               (map (fun j => estimated_roi inputs
                              + volatility inputs * np.supply st j + 1)
                    (seq (np.cursor st + k * years inputs) (years inputs))))
          (range n).
Proof.
  intros Hvol Hn.
  unfold perform_monte_carlo, bind.
  rewrite (monte_carlo_loop_paths inputs n Hvol). cbn [app].
  rewrite get_confidence_levels_ok.
  2:{ destruct n; [lia |]. rewrite map_range_succ. discriminate. }
  cbn [lift]. rewrite get_yearly_percentiles_ok. unfold ret.
  do 2 eexists. split; [reflexivity |].
  cbn [results advance np.supply np.cursor].
  split; [reflexivity |]. split; [reflexivity |].
  apply map_ext. intros k.
  unfold kth_path, path_from, history_of, drawn_returns, advance.
  cbn [fst snd np.supply np.cursor]. now rewrite map_map.
Qed.

Lemma X1_run_reads_fresh_draws_witness :
  exists res st',
    perform_monte_carlo default_inputs 3 flat_source = Ok (res, st') /\
    np.supply st' = np.supply flat_source /\
    np.cursor st' = (np.cursor flat_source + 3 * years default_inputs)%nat /\
    results res
    = map (fun k =>
             trajectory default_inputs (initial_investment default_inputs)
               (map (fun j => estimated_roi default_inputs
                              + volatility default_inputs * np.supply flat_source j + 1)
                    (seq (np.cursor flat_source + k * years default_inputs)
                         (years default_inputs))))
          (range 3).
Proof.
  apply (X1_run_reads_fresh_draws default_inputs 3 flat_source).
  - unfold Qle. simpl. lia.
  - lia.
Defined.

(** ** Equal inputs up to the value of the fractions *)

Lemma monthly_steps_proper (k : nat) (c r r' : Q) :
  r == r' -> forall b b', b == b' ->
  monthly_steps k c r b == monthly_steps k c r' b'.
Proof.
  intros Hr. induction k as [| k IH]; intros b b' Hb; cbn [monthly_steps].
  - exact Hb.
  - apply IH. now rewrite Hr, Hb.
Qed.

Lemma next_year_value_proper (inputs : Inputs) (m m' v v' : Q) :
  m == m' -> v == v' ->
  next_year_value inputs m v == next_year_value inputs m' v'.
Proof.
  intros Hm Hv. unfold next_year_value.
  rewrite (monthly_steps_proper 12 _ ((m - 1) / 12) ((m' - 1) / 12)
             ltac:(now rewrite Hm) v v' Hv).
  reflexivity.
Qed.

Lemma trajectory_pointwise (inputs : Inputs) (ms ms' : list Q) :
  Forall2 Qeq ms ms' ->
  forall v v', v == v' ->
  Forall2 Qeq (trajectory inputs v ms) (trajectory inputs v' ms').
Proof.
  induction 1 as [| m m' ms ms' Hm _ IH]; intros v v' Hv; cbn [trajectory].
  - constructor; [exact Hv | constructor].
  - constructor; [exact Hv |]. apply IH. now apply next_year_value_proper.
Qed.

Lemma Forall2_Qeq_nth (l l' : list Q) (i : nat) :
  Forall2 Qeq l l' -> nth i l 0 == nth i l' 0.
Proof.
  intros H. revert i. induction H as [| x y l l' Hxy _ IH]; intros [| i];
    cbn [nth]; try reflexivity; [exact Hxy | apply IH].
Qed.

Lemma Forall2_Qeq_map_repeat {A : Type} (f : A -> Q) (c : Q) (l : list A) :
  (forall x, f x == c) -> Forall2 Qeq (map f l) (repeat c (length l)).
Proof.
  intros Hf. induction l as [| x l IH]; cbn; constructor; [apply Hf | exact IH].
Qed.

(** Every percentile of data all equal to [c] is [c]. *)
Lemma quantile_linear_constant (a : list Q) (c q : Q) :
  a <> [] -> Forall (fun x => x == c) a -> 0 <= q -> q <= 100 ->
  np.quantile_linear a q == c.
Proof.
  intros Hne Hall H0 H100.
  assert (Hn : (1 <= length a)%nat) by (destruct a; [congruence | simpl; lia]).
  rewrite Percentile.quantile_linear_at_index.
  set (s := QSort.sort a).
  assert (Hlen : length s = length a) by apply Percentile.sort_length.
  assert (Hs : forall k, (k < length a)%nat -> nth k s 0 == c).
  { intros k Hk. rewrite Forall_forall in Hall. apply Hall.
    apply (Permutation_in _ (Permutation_sym (QSort.Permuted_sort a))).
    apply nth_In. fold s. lia. }
  assert (Hr : in_range s (virtual_index (length a) q)).
  { unfold in_range. rewrite Hlen. now apply Percentile.virtual_index_range. }
  pose proof (Percentile.at_index_between s
                (Percentile.sort_strongly_sorted a) _ Hr) as [Hlo Hhi].
  destruct Hr as [Hv0 Hvn].
  pose proof (Percentile.floor_position _ _ Hv0 Hvn) as Hp.
  rewrite Hlen in Hp, Hhi.
  rewrite Hs in Hlo by lia. rewrite Hs in Hhi by lia.
  lra.
Qed.

(** The trajectory of a horizon of [years] at the one multiplier
    [estimated_roi + 1]. *)
Definition steady_trajectory (inputs : Inputs) : list Q :=
  trajectory inputs (initial_investment inputs)
             (repeat (estimated_roi inputs + 1) (years inputs)).

Lemma path_from_steady (inputs : Inputs) (st : np.RandomState) :
  volatility inputs == 0 ->
  Forall2 Qeq (history_of (path_from inputs st)) (steady_trajectory inputs) /\
  final_of (path_from inputs st) == nth (years inputs) (steady_trajectory inputs) 0.
Proof.
  intros Hvol.
  assert (Hret : Forall2 Qeq (drawn_returns inputs st)
                   (repeat (estimated_roi inputs + 1) (years inputs))).
  { unfold drawn_returns. rewrite map_map.
    pose proof (Forall2_Qeq_map_repeat
                  (fun k => estimated_roi inputs
                            + volatility inputs * np.supply st k + 1)
                  (estimated_roi inputs + 1)
                  (seq (np.cursor st) (years inputs))) as Hrep.
    rewrite length_seq in Hrep. apply Hrep.
    intros k. rewrite Hvol. ring. }
  assert (Hh : Forall2 Qeq (history_of (path_from inputs st))
                 (steady_trajectory inputs)).
  { unfold path_from, history_of, steady_trajectory. cbn [fst snd].
    apply trajectory_pointwise; [exact Hret | reflexivity]. }
  split; [exact Hh |].
  rewrite <- (Forall2_Qeq_nth _ _ (years inputs) Hh).
  unfold path_from, history_of, final_of. cbn [fst snd].
  pose proof (trajectory_final inputs (initial_investment inputs)
                (drawn_returns inputs st)) as Hfin.
  rewrite drawn_returns_length in Hfin.
  rewrite (nth_error_nth _ _ 0 Hfin). reflexivity.
Qed.

(** X2.  With a volatility of zero every path of a run is, value for value,
    the one trajectory at the multiplier [1 + estimated_roi]; at every year
    all five percentiles of the table collapse to its value, and both
    confidence bounds are its last value. *)
Theorem X2_zero_volatility_collapses (inputs : Inputs) (n : nat)
    (st : np.RandomState) :
  volatility inputs == 0 -> (1 <= n)%nat ->
  exists res st',
    perform_monte_carlo inputs n st = Ok (res, st') /\
    Forall (fun history => Forall2 Qeq history (steady_trajectory inputs))
           (results res) /\
    (forall i, (i <= years inputs)%nat ->
       row_collapses (yearly_percentiles res) i
                     (nth i (steady_trajectory inputs) 0)) /\
    lower_confidence res == nth (years inputs) (steady_trajectory inputs) 0 /\
    upper_confidence res == nth (years inputs) (steady_trajectory inputs) 0.
Proof.
  intros Hvol Hn.
  assert (Hvol0 : 0 <= volatility inputs) by (rewrite Hvol; lra).
  destruct (perform_monte_carlo_ok inputs Hvol0 n st Hn)
    as (paths & st' & Hrun & Hlen & Hall).
  eexists _, st'. split; [exact Hrun |].
  cbn [results yearly_percentiles lower_confidence upper_confidence].
  assert (Hne : paths <> []) by (destruct paths; [simpl in Hlen; lia | discriminate]).
  assert (Hhist : Forall (fun history => Forall2 Qeq history (steady_trajectory inputs))
                         (map history_of paths)).
  { apply Forall_map. eapply Forall_impl; [| exact Hall].
    intros p (st0 & ->). now apply path_from_steady. }
  assert (Hfin : Forall (fun x => x == nth (years inputs) (steady_trajectory inputs) 0)
                        (map final_of paths)).
  { apply Forall_map. eapply Forall_impl; [| exact Hall].
    intros p (st0 & ->). now apply path_from_steady. }
  assert (Hfne : map final_of paths <> []) by (destruct paths; [congruence | discriminate]).
  assert (Hrne : map history_of paths <> []) by (destruct paths; [congruence | discriminate]).
  split; [exact Hhist |]. split; [| split].
  - intros i Hi.
    destruct (table_uniform_row inputs _ (S (years inputs)) i Hrne
                (results_uniform inputs paths Hall) ltac:(lia))
      as (E5 & E25 & E50 & E75 & E95).
    assert (Hcol : Forall (fun x => x == nth i (steady_trajectory inputs) 0)
                          (balances_at (map history_of paths) i)).
    { unfold balances_at. apply Forall_map.
      eapply Forall_impl; [| exact Hhist].
      intros h Hh. now apply Forall2_Qeq_nth. }
    pose proof (balances_at_inhabited _ i Hrne) as Hcne.
    unfold row_collapses. rewrite E5, E25, E50, E75, E95.
    refine (conj _ (conj _ (conj _ (conj _ _))));
      apply quantile_linear_constant; solve [assumption | lra].
  - apply quantile_linear_constant; solve [assumption | lra].
  - apply quantile_linear_constant; solve [assumption | lra].
Qed.

(** Inputs with no volatility. *)
Definition steady_inputs : Inputs :=
  mkInputs 50000 1000 5000 2 (8 # 100) 0.

Lemma X2_zero_volatility_collapses_witness :
  exists res st',
    perform_monte_carlo steady_inputs 3 flat_source = Ok (res, st') /\
    Forall (fun history => Forall2 Qeq history (steady_trajectory steady_inputs))
           (results res) /\
    (forall i, (i <= years steady_inputs)%nat ->
       row_collapses (yearly_percentiles res) i
                     (nth i (steady_trajectory steady_inputs) 0)) /\
    lower_confidence res == nth (years steady_inputs) (steady_trajectory steady_inputs) 0 /\
    upper_confidence res == nth (years steady_inputs) (steady_trajectory steady_inputs) 0.
Proof.
  apply (X2_zero_volatility_collapses steady_inputs 3 flat_source).
  - reflexivity.
  - lia.
Defined.

(** ** Where the percentiles lie *)

(** A percentile of data lies between two of the data. *)
Lemma quantile_linear_within (a : list Q) (q : Q) :
  a <> [] -> 0 <= q -> q <= 100 ->
  exists x y, In x a /\ In y a /\
              x <= np.quantile_linear a q /\ np.quantile_linear a q <= y.
Proof.
  intros Hne H0 H100.
  assert (Hn : (1 <= length a)%nat) by (destruct a; [congruence | simpl; lia]).
  rewrite Percentile.quantile_linear_at_index.
  set (s := QSort.sort a).
  assert (Hlen : length s = length a) by apply Percentile.sort_length.
  assert (Hin : forall k, (k < length a)%nat -> In (nth k s 0) a).
  { intros k Hk.
    apply (Permutation_in _ (Permutation_sym (QSort.Permuted_sort a))).
    apply nth_In. fold s. lia. }
  assert (Hr : in_range s (virtual_index (length a) q)).
  { unfold in_range. rewrite Hlen. now apply Percentile.virtual_index_range. }
  pose proof (Percentile.at_index_between s
                (Percentile.sort_strongly_sorted a) _ Hr) as [Hlo Hhi].
  destruct Hr as [Hv0 Hvn].
  pose proof (Percentile.floor_position _ _ Hv0 Hvn) as Hp.
  rewrite Hlen in Hp, Hhi.
  eexists _, _. split; [apply Hin | split; [apply Hin | split; [exact Hlo | exact Hhi]]]; lia.
Qed.

(** X3.  The confidence interval of final balances that are not empty lies
    within their range: some balance is at most the lower bound, some
    balance is at least the upper bound, and lower <= upper. *)
Theorem X3_confidence_within_range (balances : list Q) :
  balances <> [] ->
  exists lower upper smallest largest,
    get_confidence_levels balances = Ok (lower, upper) /\
    In smallest balances /\ In largest balances /\
    smallest <= lower /\ lower <= upper /\ upper <= largest.
Proof.
  intros Hne.
  destruct (quantile_linear_within balances (25 # 10) Hne ltac:(lra) ltac:(lra))
    as (x & _ & Hx & _ & Hlo & _).
  destruct (quantile_linear_within balances (975 # 10) Hne ltac:(lra) ltac:(lra))
    as (_ & y & _ & Hy & _ & Hhi).
  exists (np.quantile_linear balances (25 # 10)),
         (np.quantile_linear balances (975 # 10)), x, y.
  split; [now apply get_confidence_levels_ok |].
  repeat split; try assumption.
  apply Percentile.quantile_linear_mono; solve [exact Hne | lra].
Qed.

Lemma X3_confidence_within_range_witness :
  exists lower upper smallest largest,
    get_confidence_levels [30; 10; 20] = Ok (lower, upper) /\
    In smallest [30; 10; 20] /\ In largest [30; 10; 20] /\
    smallest <= lower /\ lower <= upper /\ upper <= largest.
Proof.
  apply (X3_confidence_within_range [30; 10; 20]). discriminate.
Defined.

Lemma path_from_final_at_horizon (inputs : Inputs) (st : np.RandomState) :
  nth (years inputs) (history_of (path_from inputs st)) 0
  = final_of (path_from inputs st).
Proof.
  unfold path_from, history_of, final_of. cbn [fst snd].
  pose proof (trajectory_final inputs (initial_investment inputs)
                (drawn_returns inputs st)) as Hfin.
  rewrite drawn_returns_length in Hfin.
  apply (nth_error_nth _ _ 0 Hfin).
Qed.

(** X4.  In a run the last row of the table, the one the page reads with
    [iloc[-1]], holds the percentiles of the final balances, and it lies
    within the confidence interval: lower <= 5th and 95th <= upper. *)
Theorem X4_last_row_within_confidence (inputs : Inputs) (n : nat)
    (st : np.RandomState) :
  0 <= volatility inputs -> (1 <= n)%nat ->
  exists res st',
    perform_monte_carlo inputs n st = Ok (res, st') /\
    length (col_year (yearly_percentiles res)) = S (years inputs) /\
    row_percentiles (yearly_percentiles res) (years inputs) (final_balances res) /\
    lower_confidence res <= nth (years inputs) (col_5th (yearly_percentiles res)) 0 /\
    nth (years inputs) (col_95th (yearly_percentiles res)) 0 <= upper_confidence res.
Proof.
  intros Hvol Hn.
  destruct (perform_monte_carlo_ok inputs Hvol n st Hn)
    as (paths & st' & Hrun & Hlen & Hall).
  eexists _, st'. split; [exact Hrun |].
  cbn [results final_balances yearly_percentiles lower_confidence upper_confidence].
  assert (Hrne : map history_of paths <> [])
    by (destruct paths; [simpl in Hlen; lia | discriminate]).
  assert (Hfne : map final_of paths <> [])
    by (destruct paths; [simpl in Hlen; lia | discriminate]).
  pose proof (results_uniform inputs paths Hall) as Huni.
  assert (Hcol : balances_at (map history_of paths) (years inputs)
                 = map final_of paths).
  { unfold balances_at. rewrite map_map. apply map_ext_in.
    intros p Hp. rewrite Forall_forall in Hall.
    destruct (Hall p Hp) as (st0 & ->). apply path_from_final_at_horizon. }
  destruct (table_uniform_row inputs _ (S (years inputs)) (years inputs) Hrne Huni
              ltac:(lia)) as (E5 & E25 & E50 & E75 & E95).
  rewrite Hcol in *.
  split.
  { rewrite (table_uniform_years inputs _ _ Hrne Huni). apply length_seq. }
  split.
  - unfold row_percentiles. rewrite E5, E25, E50, E75, E95.
    repeat split; apply Percentile.percentile_ok;
      solve [exact Hfne | reflexivity].
  - rewrite E5, E95.
    split; apply Percentile.quantile_linear_mono; solve [exact Hfne | lra].
Qed.

Lemma X4_last_row_within_confidence_witness :
  exists res st',
    perform_monte_carlo default_inputs 3 flat_source = Ok (res, st') /\
    length (col_year (yearly_percentiles res)) = S (years default_inputs) /\
    row_percentiles (yearly_percentiles res) (years default_inputs)
                    (final_balances res) /\
    lower_confidence res
    <= nth (years default_inputs) (col_5th (yearly_percentiles res)) 0 /\
    nth (years default_inputs) (col_95th (yearly_percentiles res)) 0
    <= upper_confidence res.
Proof.
  apply (X4_last_row_within_confidence default_inputs 3 flat_source).
  - unfold Qle. simpl. lia.
  - lia.
Defined.

(** ** The order of the data does not matter *)

(** How many values of [l] satisfy [p]. *)
Fixpoint count (p : Q -> bool) (l : list Q) : nat :=
  match l with
  | [] => O
  | x :: l' => ((if p x then 1 else 0) + count p l')%nat
  end.

(** The tests "is below [v]" and "is at most [v]". *)
Definition below (v x : Q) : bool := negb (Qle_bool v x).
Definition at_most (v x : Q) : bool := Qle_bool x v.

Module Rank.

Lemma count_permutation (p : Q -> bool) (l l' : list Q) :
  Permutation l l' -> count p l = count p l'.
Proof.
  induction 1 as [| x l l' _ IH | x y l | l l' l'' _ IH1 _ IH2]; cbn [count];
    lia.
Qed.

Lemma below_spec (v x : Q) : below v x = true <-> x < v.
Proof.
  unfold below. rewrite negb_true_iff.
  destruct (Qle_bool v x) eqn:E.
  - apply Qle_bool_iff in E. split; [discriminate | lra].
  - split; [intros _ | reflexivity].
    apply Qnot_le_lt. intros Hle. apply Qle_bool_iff in Hle. congruence.
Qed.

Lemma at_most_spec (v x : Q) : at_most v x = true <-> x <= v.
Proof. apply Qle_bool_iff. Qed.

Lemma count_none (p : Q -> bool) (l : list Q) :
  Forall (fun x => p x = false) l -> count p l = O.
Proof. induction 1 as [| x l Hx _ IH]; cbn [count]; [| rewrite Hx]; lia. Qed.

Lemma not_below_above (v x : Q) : v <= x -> below v x = false.
Proof.
  intros H. destruct (below v x) eqn:E; [| reflexivity].
  apply below_spec in E. lra.
Qed.

(** In sorted data, at most [k] values are below the one at position [k],
    and more than [k] are at most it. *)
Lemma sorted_rank (l : list Q) :
  StronglySorted Qle l ->
  forall k, (k < length l)%nat ->
    (count (below (nth k l 0%Q)) l <= k < count (at_most (nth k l 0%Q)) l)%nat.
Proof.
  induction 1 as [| x l Hs IH Hall]; intros k Hk; cbn [length] in Hk; [lia |].
  destruct k as [| k]; cbn [nth count].
  - rewrite (not_below_above x x) by lra.
    rewrite (proj2 (at_most_spec x x)) by lra.
    rewrite count_none; [lia |].
    eapply Forall_impl; [| exact Hall]. intros y Hy. now apply not_below_above.
  - specialize (IH k ltac:(lia)).
    assert (Hx : x <= nth k l 0).
    { rewrite Forall_forall in Hall. apply Hall, nth_In. lia. }
    rewrite (proj2 (at_most_spec (nth k l 0) x)) by exact Hx.
    destruct (below (nth k l 0) x); lia.
Qed.

(** The value at position [k] of sorted data is the only one of that rank. *)
Lemma sorted_rank_unique (l : list Q) (v : Q) :
  StronglySorted Qle l ->
  forall k, (count (below v) l <= k < count (at_most v) l)%nat ->
            nth k l 0 == v.
Proof.
  induction 1 as [| x l Hs IH Hall]; intros k Hk; cbn [count] in Hk; [lia |].
  rewrite Forall_forall in Hall.
  destruct k as [| k]; cbn [nth].
  - destruct (below v x) eqn:Eb; [lia |].
    assert (Hvx : v <= x).
    { destruct (Qlt_le_dec x v) as [Hlt | Hle]; [| exact Hle].
      apply below_spec in Hlt. congruence. }
    destruct (at_most v x) eqn:Ea.
    + apply at_most_spec in Ea. lra.
    + assert (Hnone : count (at_most v) l = O).
      { apply count_none. apply Forall_forall. intros y Hy.
        destruct (at_most v y) eqn:E; [| reflexivity].
        apply at_most_spec in E. specialize (Hall y Hy).
        assert (Hxv : x <= v) by lra.
        apply at_most_spec in Hxv. congruence. }
      lia.
  - apply IH.
    destruct (at_most v x) eqn:Ea; destruct (below v x) eqn:Eb; try lia.
    + assert (Hvx : v <= x).
      { destruct (Qlt_le_dec x v) as [Hlt | Hle]; [| exact Hle].
        apply below_spec in Hlt. congruence. }
      rewrite (count_none (below v) l); [lia |].
      apply Forall_forall. intros y Hy. apply not_below_above.
      specialize (Hall y Hy). lra.
    + assert (Hvx : v <= x).
      { destruct (Qlt_le_dec x v) as [Hlt | Hle]; [| exact Hle].
        apply below_spec in Hlt. congruence. }
      rewrite (count_none (below v) l); [lia |].
      apply Forall_forall. intros y Hy. apply not_below_above.
      specialize (Hall y Hy). lra.
Qed.

(** Two sortings of the same data agree position by position. *)
Lemma sorted_permutation_nth (s t : list Q) :
  StronglySorted Qle s -> StronglySorted Qle t -> Permutation s t ->
  forall k, nth k s 0 == nth k t 0.
Proof.
  intros Hs Ht Hperm k.
  destruct (Nat.lt_ge_cases k (length s)) as [Hk | Hk].
  - symmetry. apply sorted_rank_unique; [exact Ht |].
    rewrite <- !(count_permutation _ _ _ Hperm).
    now apply sorted_rank.
  - rewrite !nth_overflow; [reflexivity | | exact Hk].
    now rewrite <- (Permutation_length Hperm).
Qed.

Lemma lerp_proper (a a' b b' t : Q) :
  a == a' -> b == b' -> np.lerp a b t == np.lerp a' b' t.
Proof.
  intros Ha Hb. rewrite !Percentile.lerp_value. now rewrite Ha, Hb.
Qed.

(** A percentile does not depend on the order of the data. *)
Lemma quantile_linear_permutation (a b : list Q) (q : Q) :
  Permutation a b -> np.quantile_linear a q == np.quantile_linear b q.
Proof.
  intros Hperm.
  assert (Hsorted : forall k, nth k (QSort.sort a) 0 == nth k (QSort.sort b) 0).
  { apply sorted_permutation_nth; try apply Percentile.sort_strongly_sorted.
    eapply Permutation_trans; [apply Permutation_sym, QSort.Permuted_sort |].
    eapply Permutation_trans; [exact Hperm | apply QSort.Permuted_sort]. }
  rewrite !Percentile.quantile_linear_at_index.
  rewrite <- (Permutation_length Hperm).
  unfold at_index. cbv zeta.
  rewrite !Percentile.sort_length, <- (Permutation_length Hperm).
  apply lerp_proper; apply Hsorted.
Qed.

End Rank.

(** Row [i] of two tables holds the same values. *)
Definition rows_agree (df df' : DataFrame) (i : nat) : Prop :=
  nth i (col_5th df) 0 == nth i (col_5th df') 0 /\
  nth i (col_25th df) 0 == nth i (col_25th df') 0 /\
  nth i (col_median df) 0 == nth i (col_median df') 0 /\
  nth i (col_75th df) 0 == nth i (col_75th df') 0 /\
  nth i (col_95th df) 0 == nth i (col_95th df') 0 /\
  nth i (col_invested df) 0 = nth i (col_invested df') 0.

(** X5.  The statistics do not depend on the order in which the paths were
    generated: final balances in another order give the same confidence
    interval, and trajectories of one length in another order give a table
    with the same years and, row by row, the same values. *)
Theorem X5_order_of_paths_irrelevant :
  (forall balances balances' : list Q,
      balances <> [] -> Permutation balances balances' ->
      exists lower upper lower' upper',
        get_confidence_levels balances = Ok (lower, upper) /\
        get_confidence_levels balances' = Ok (lower', upper') /\
        lower == lower' /\ upper == upper') /\
  (forall (inputs : Inputs) (results results' : list (list Q)) (L : nat),
      results <> [] -> Forall (fun path => length path = L) results ->
      Permutation results results' ->
      exists df df',
        get_yearly_percentiles results inputs = Ok df /\
        get_yearly_percentiles results' inputs = Ok df' /\
        col_year df = col_year df' /\
        forall i, (i < L)%nat -> rows_agree df df' i).
Proof.
  split.
  - intros balances balances' Hne Hperm.
    assert (Hne' : balances' <> []).
    { intros ->. apply Permutation_sym, Permutation_nil in Hperm. congruence. }
    do 4 eexists.
    split; [now apply get_confidence_levels_ok |].
    split; [now apply get_confidence_levels_ok |].
    split; now apply Rank.quantile_linear_permutation.
  - intros inputs results results' L Hne Hall Hperm.
    assert (Hne' : results' <> []).
    { intros ->. apply Permutation_sym, Permutation_nil in Hperm. congruence. }
    assert (Hall' : Forall (fun path => length path = L) results').
    { apply Forall_forall. intros p Hp. rewrite Forall_forall in Hall.
      apply Hall. apply (Permutation_in _ (Permutation_sym Hperm) Hp). }
    exists (table_of inputs results), (table_of inputs results').
    split; [apply get_yearly_percentiles_ok |].
    split; [apply get_yearly_percentiles_ok |].
    split.
    { now rewrite (table_uniform_years inputs results L),
                  (table_uniform_years inputs results' L). }
    intros i Hi.
    destruct (table_uniform_row inputs results L i Hne Hall Hi)
      as (E5 & E25 & E50 & E75 & E95).
    destruct (table_uniform_row inputs results' L i Hne' Hall' Hi)
      as (F5 & F25 & F50 & F75 & F95).
    assert (Hcol : Permutation (balances_at results i) (balances_at results' i))
      by (apply Permutation_map, Hperm).
    unfold rows_agree.
    rewrite E5, E25, E50, E75, E95, F5, F25, F50, F75, F95.
    rewrite (table_uniform_invested inputs results L Hne Hall),
            (table_uniform_invested inputs results' L Hne' Hall').
    refine (conj _ (conj _ (conj _ (conj _ (conj _ eq_refl)))));
      now apply Rank.quantile_linear_permutation.
Qed.

Lemma X5_order_of_paths_irrelevant_witness :
  exists lower upper lower' upper',
    get_confidence_levels [30; 10; 20] = Ok (lower, upper) /\
    get_confidence_levels [10; 30; 20] = Ok (lower', upper') /\
    lower == lower' /\ upper == upper'.
Proof.
  apply (proj1 X5_order_of_paths_irrelevant [30; 10; 20] [10; 30; 20]).
  - discriminate.
  - apply perm_swap.
Defined.

(** ** Balances against the amounts paid in *)

Section Growth.

Variable inputs : Inputs.

Let c : Q := monthly_contribution inputs.









End Growth.





(** ** More money in, a different unit of account *)


(** [inputs'] puts in at least what [inputs] does, over the same horizon. *)
Definition pays_at_least (inputs inputs' : Inputs) : Prop :=
  years inputs' = years inputs /\
  initial_investment inputs <= initial_investment inputs' /\
  monthly_contribution inputs <= monthly_contribution inputs' /\
  yearly_bonus inputs <= yearly_bonus inputs'.

Lemma monthly_steps_mono (k : nat) (c c' r : Q) :
  0 <= 1 + r -> c <= c' ->
  forall b b', b <= b' -> monthly_steps k c r b <= monthly_steps k c' r b'.
Proof.
  intros Hr Hc. induction k as [| k IH]; intros b b' Hb; cbn [monthly_steps].
  - exact Hb.
  - apply IH. nra.
Qed.


Lemma trajectory_mono (inputs inputs' : Inputs) (ms : list Q) :
  monthly_contribution inputs <= monthly_contribution inputs' ->
  yearly_bonus inputs <= yearly_bonus inputs' ->
  Forall (fun m => - (11) <= m) ms ->
  forall v v' i, v <= v' ->
    nth i (trajectory inputs v ms) 0 <= nth i (trajectory inputs' v' ms) 0.
Proof.
  intros Hc Hb. induction 1 as [| m ms Hm _ IH]; intros v v' i Hv.
  - destruct i as [| [| i]]; cbn [trajectory nth]; lra.
  - destruct i as [| i]; cbn [trajectory nth]; [exact Hv |].
    apply IH. unfold next_year_value.
    assert (Hr : 0 <= 1 + (m - 1) / 12).
    { assert (E : (m - 1) / 12 == (m - 1) * (1 # 12)) by field. rewrite E. lra. }
    pose proof (monthly_steps_mono 12 _ _ _ Hr Hc v v' Hv). lra.
Qed.


(** X8.  Putting in more never leaves less: if [inputs'] has at least the
    initial investment, the monthly contribution and the yearly bonus of
    [inputs], then under the same return multipliers, none of which makes a
    monthly growth factor negative (each is at least -11), the balance of
    [inputs'] is at least the balance of [inputs] at every year. *)
Theorem X8_more_paid_in_never_less (inputs inputs' : Inputs) (returns : list Q) :
  pays_at_least inputs inputs' ->
  Forall (fun m => - (11) <= m) returns -> length returns = years inputs ->
  exists balance history mean_return balance' history' mean_return',
    simulate_path inputs returns = Ok (balance, history, mean_return) /\
    simulate_path inputs' returns = Ok (balance', history', mean_return') /\
    balance <= balance' /\
    forall i, (i <= years inputs)%nat -> nth i history 0 <= nth i history' 0.
Proof.
  intros (Hy & Hinit & Hc & Hb) Hret Hlen. do 6 eexists.
  split; [apply simulate_path_ok, Hlen |].
  split; [apply simulate_path_ok; now rewrite Hy |].
  assert (Hall : forall i,
            nth i (trajectory inputs (initial_investment inputs) returns) 0
            <= nth i (trajectory inputs' (initial_investment inputs') returns) 0).
  { intros i. now apply trajectory_mono. }
  split; [| intros i _; apply Hall].
  pose proof (trajectory_final inputs (initial_investment inputs) returns) as F.
  pose proof (trajectory_final inputs' (initial_investment inputs') returns) as F'.
  rewrite <- (nth_error_nth _ _ 0 F), <- (nth_error_nth _ _ 0 F'). apply Hall.
Qed.

(** The sample inputs with twice the monthly contribution. *)
Definition generous_inputs : Inputs :=
  mkInputs 50000 2000 5000 1 (8 # 100) (15 # 100).

Lemma X8_more_paid_in_never_less_witness :
  exists balance history mean_return balance' history' mean_return',
    simulate_path default_inputs [108 # 100] = Ok (balance, history, mean_return) /\
    simulate_path generous_inputs [108 # 100] = Ok (balance', history', mean_return') /\
    balance <= balance' /\
    forall i, (i <= years default_inputs)%nat ->
      nth i history 0 <= nth i history' 0.
Proof.
  apply (X8_more_paid_in_never_less default_inputs generous_inputs [108 # 100]).
  - unfold pays_at_least, Qle. simpl. lia.
  - repeat constructor. unfold Qle. simpl. lia.
  - reflexivity.
Defined.



(** ** Trajectories of different lengths, and none at all *)

(** The length of the shortest trajectory; 0 when there is none. *)
Definition shortest (results : list (list Q)) : nat :=
  match results with
  | [] => O
  | r :: rest => fold_right Nat.min (length r) (map (@length Q) rest)
  end.

Lemma zip_star_shortest (results : list (list Q)) :
  zip_star results = map (balances_at results) (range (shortest results)).
Proof. destruct results; reflexivity. Qed.

Lemma fold_min_le_start (a : nat) (ls : list nat) :
  (fold_right Nat.min a ls <= a)%nat.
Proof. induction ls as [| x ls IH]; cbn [fold_right]; lia. Qed.

Lemma fold_min_le_each (a : nat) (ls : list nat) (x : nat) :
  In x ls -> (fold_right Nat.min a ls <= x)%nat.
Proof.
  induction ls as [| y ls IH]; intros Hin; [destruct Hin |].
  cbn [fold_right]. destruct Hin as [-> | Hin]; [lia |].
  specialize (IH Hin). lia.
Qed.

Lemma fold_min_attained (a : nat) (ls : list nat) :
  fold_right Nat.min a ls = a \/ In (fold_right Nat.min a ls) ls.
Proof.
  induction ls as [| y ls IH]; cbn [fold_right]; [now left |].
  destruct (Nat.min_spec y (fold_right Nat.min a ls)) as [[_ ->] | [_ ->]].
  - right. now left.
  - destruct IH as [IH | IH]; [now left | right; now right].
Qed.

Lemma shortest_le (results : list (list Q)) (path : list Q) :
  In path results -> (shortest results <= length path)%nat.
Proof.
  destruct results as [| r rest]; intros Hin; [destruct Hin |].
  cbn [shortest]. destruct Hin as [-> | Hin].
  - apply fold_min_le_start.
  - apply fold_min_le_each, in_map, Hin.
Qed.

Lemma shortest_attained (results : list (list Q)) :
  results <> [] -> exists path, In path results /\ shortest results = length path.
Proof.
  destruct results as [| r rest]; intros Hne; [congruence |].
  cbn [shortest].
  destruct (fold_min_attained (length r) (map (@length Q) rest)) as [E | Hin].
  - exists r. split; [now left | exact E].
  - apply in_map_iff in Hin. destruct Hin as (p & Hp & Hin).
    exists p. split; [now right | now symmetry].
Qed.

Lemma table_of_shortest (inputs : Inputs) (results : list (list Q)) :
  table_of inputs results
  = frame_of_rows
      (map (fun i => row_of inputs (i, balances_at results i))
           (range (shortest results))).
Proof.
  unfold table_of.
  now rewrite zip_star_shortest, enumerate_map_range, map_map.
Qed.

(** X10.  [get_yearly_percentiles] accepts any collection of trajectories
    and never raises.  The table stops at the shortest trajectory: it has
    the years [0 .. length - 1] of the shortest one, every column has that
    many entries, and row [i] holds the percentiles of the values at index
    [i] of all trajectories; the values of longer trajectories past that
    point are dropped.  With no trajectory the table has no row. *)
Theorem X10_table_stops_at_shortest (inputs : Inputs) (results : list (list Q)) :
  exists df,
    get_yearly_percentiles results inputs = Ok df /\
    col_year df = range (shortest results) /\
    length (col_5th df) = shortest results /\
    length (col_25th df) = shortest results /\
    length (col_median df) = shortest results /\
    length (col_75th df) = shortest results /\
    length (col_95th df) = shortest results /\
    length (col_invested df) = shortest results /\
    (forall path, In path results -> (shortest results <= length path)%nat) /\
    (results <> [] ->
     exists path, In path results /\ shortest results = length path) /\
    (results = [] -> col_year df = []) /\
    forall i, (i < shortest results)%nat ->
      row_percentiles df i (balances_at results i).
Proof.
  exists (table_of inputs results).
  split; [apply get_yearly_percentiles_ok |].
  rewrite table_of_shortest. unfold frame_of_rows.
  cbn [col_year col_5th col_25th col_median col_75th col_95th col_invested].
  rewrite !map_map, !length_map.
  cbn [row_of row_year row_5th row_25th row_median row_75th row_95th fst snd].
  split; [apply map_id |].
  do 6 (split; [apply length_seq |]).
  split; [intros path; apply shortest_le |].
  split; [apply shortest_attained |].
  split; [intros ->; reflexivity |].
  intros i Hi.
  assert (Hne : balances_at results i <> []).
  { apply balances_at_inhabited. intros ->. simpl in Hi. lia. }
  unfold row_percentiles.
  cbn [col_5th col_25th col_median col_75th col_95th].
  rewrite !(nth_map_range _ _ i Hi).
  repeat split; apply Percentile.percentile_ok; solve [exact Hne | reflexivity].
Qed.

(** * plots.py: the monthly growth analysis *)












Section Appending.

Context {A : Type}.







End Appending.

Section MonthlyGrowth.









End MonthlyGrowth.





(** * app.py: the statistics of the page *)

(** The exceptions of the page: those of the engine, and Python's own
    division by zero. *)
Inductive app_error : Type :=
| Reraised (e : py_error)
| ZeroDivisionError.

Inductive outcome (A : Type) : Type :=
| Done (a : A)
| Crash (e : app_error).

Arguments Done {A} a.
Arguments Crash {A} e.

Definition obind {A B : Type} (o : outcome A) (k : A -> outcome B) : outcome B :=
  match o with
  | Done a => k a
  | Crash e => Crash e
  end.

Notation "'step' x <- o ; k" := (obind o (fun x => k))
  (at level 10, x pattern, o at level 100, k at level 200).

(** [column.iloc[-1]]: the last entry of a column, [IndexError] when it has
    none. *)
Definition iloc_last (column : list Q) : outcome Q :=
  match column with
  | [] => Crash (Reraised IndexError)
  | _ => Done (last column 0)
  end.

(** Python's [sum] over floats, [None] standing for [nan]. *)
Definition py_sum (xs : list (option Q)) : option Q :=
  fold_left (fun acc x =>
               match acc, x with
               | Some a, Some v => Some (a + v)
               | _, _ => None
               end)
            xs (Some 0).

(** [sum(xs) / len(xs)]. *)
Definition sum_over_len (xs : list (option Q)) : outcome (option Q) :=
  match xs with
  | [] => Crash ZeroDivisionError
  | _ => Done (option_map (fun s => s / inject_Z (Z.of_nat (length xs)))
                          (py_sum xs))
  end.

(** The values [display_statistics] hands to [format_currency] and
    [format_percent] for the metrics of the page, by metric. *)
Record Page : Type := mkPage {
  total_invested : Q;
  median_final_balance : Q;
  average_return : option Q;
  percentile_95th : Q;
  percentile_5th : Q;
  confidence_range : Q * Q;
  monthly_withdrawal : Q;
  yearly_withdrawal : Q
}.

Definition display_statistics (results : SimulationResult) (inputs : Inputs)
  : outcome Page :=
  let total_invested :=
    initial_investment inputs
    + (monthly_contribution inputs * 12 + yearly_bonus inputs)
      * inject_Z (Z.of_nat (years inputs)) in
  step median <- iloc_last (col_median (yearly_percentiles results));
  step average <- sum_over_len (mean_returns results);
  step p95 <- iloc_last (col_95th (yearly_percentiles results));
  step p5 <- iloc_last (col_5th (yearly_percentiles results));
  let confidence_range := (lower_confidence results, upper_confidence results) in
  step median_balance <- iloc_last (col_median (yearly_percentiles results));
  let safe_withdrawal_rate := 4 # 100 in
  let yearly_withdrawal := median_balance * safe_withdrawal_rate in
  let monthly_withdrawal := yearly_withdrawal / 12 in
  Done (mkPage total_invested median average p95 p5 confidence_range
               monthly_withdrawal yearly_withdrawal).

Lemma last_nth_pred (l : list Q) :
  last l 0 = nth (length l - 1) l 0.
Proof.
  destruct l as [| x l]; [reflexivity |].
  symmetry. apply nth_error_nth. apply last_nth_error. discriminate.
Qed.

Lemma iloc_last_ok (column : list Q) (H : nat) :
  length column = S H -> iloc_last column = Done (nth H column 0).
Proof.
  intros Hlen. unfold iloc_last. destruct column as [| x l]; [discriminate |].
  rewrite last_nth_pred, Hlen. now rewrite Nat.sub_1_r.
Qed.

(** The last row of the table of a run, and its confidence bounds, in terms
    of the final balances. *)
Lemma run_last_row (inputs : Inputs) (n : nat) (st : np.RandomState) :
  0 <= volatility inputs -> (1 <= n)%nat ->
  exists res st',
    perform_monte_carlo inputs n st = Ok (res, st') /\
    final_balances res <> [] /\
    mean_returns res <> [] /\
    length (col_5th (yearly_percentiles res)) = S (years inputs) /\
    length (col_median (yearly_percentiles res)) = S (years inputs) /\
    length (col_95th (yearly_percentiles res)) = S (years inputs) /\
    length (col_invested (yearly_percentiles res)) = S (years inputs) /\
    nth (years inputs) (col_5th (yearly_percentiles res)) 0
    = np.quantile_linear (final_balances res) 5 /\
    nth (years inputs) (col_median (yearly_percentiles res)) 0
    = np.quantile_linear (final_balances res) 50 /\
    nth (years inputs) (col_95th (yearly_percentiles res)) 0
    = np.quantile_linear (final_balances res) 95 /\
    nth (years inputs) (col_invested (yearly_percentiles res)) 0
    = invested_by inputs (years inputs) /\
    lower_confidence res = np.quantile_linear (final_balances res) (25 # 10) /\
    upper_confidence res = np.quantile_linear (final_balances res) (975 # 10).
Proof.
  intros Hvol Hn.
  destruct (perform_monte_carlo_ok inputs Hvol n st Hn)
    as (paths & st' & Hrun & Hlen & Hall).
  eexists _, st'. split; [exact Hrun |].
  cbn [results final_balances mean_returns yearly_percentiles
       lower_confidence upper_confidence].
  assert (Hrne : map history_of paths <> [])
    by (destruct paths; [simpl in Hlen; lia | discriminate]).
  pose proof (results_uniform inputs paths Hall) as Huni.
  assert (Hcol : balances_at (map history_of paths) (years inputs)
                 = map final_of paths).
  { unfold balances_at. rewrite map_map. apply map_ext_in.
    intros p Hp. rewrite Forall_forall in Hall.
    destruct (Hall p Hp) as (st0 & ->). apply path_from_final_at_horizon. }
  destruct (table_uniform_row inputs _ (S (years inputs)) (years inputs) Hrne Huni
              ltac:(lia)) as (E5 & _ & E50 & _ & E95).
  rewrite Hcol in *.
  split; [destruct paths; [simpl in Hlen; lia | discriminate] |].
  split; [destruct paths; [simpl in Hlen; lia | discriminate] |].
  rewrite (table_uniform_invested inputs _ _ Hrne Huni).
  rewrite (nth_map_range _ _ (years inputs)) by lia.
  rewrite (table_uniform inputs _ _ Hrne Huni) in *.
  unfold frame_of_rows in *.
  cbn [col_5th col_median col_95th col_invested] in *.
  rewrite !length_map. unfold range. rewrite !length_seq.
  repeat (split; [first [reflexivity | assumption] |]).
  reflexivity.
Qed.

(** X13.  After a run that completes, [display_statistics] does not raise,
    and the numbers of the page hang together: the total invested is the
    last entry of the invested column of the table, the median final balance
    is the 50th percentile of the final balances, the confidence range
    encloses the 5th percentile, the median and the 95th percentile in this
    order, the yearly withdrawal is 4% of the median final balance, and
    twelve monthly withdrawals make the yearly one. *)
Theorem X13_page_after_run (inputs : Inputs) (n : nat) (st : np.RandomState) :
  0 <= volatility inputs -> (1 <= n)%nat ->
  exists res st' page,
    perform_monte_carlo inputs n st = Ok (res, st') /\
    display_statistics res inputs = Done page /\
    iloc_last (col_invested (yearly_percentiles res))
    = Done (total_invested page) /\
    np.percentile (final_balances res) 50 = Ok (median_final_balance page) /\
    fst (confidence_range page) <= percentile_5th page /\
    percentile_5th page <= median_final_balance page /\
    median_final_balance page <= percentile_95th page /\
    percentile_95th page <= snd (confidence_range page) /\
    yearly_withdrawal page == (4 # 100) * median_final_balance page /\
    monthly_withdrawal page * 12 == yearly_withdrawal page.
Proof.
  intros Hvol Hn.
  destruct (run_last_row inputs n st Hvol Hn)
    as (res & st' & Hrun & Hfne & Hmne & L5 & L50 & L95 & Linv
        & E5 & E50 & E95 & Einv & Elo & Ehi).
  set (median := nth (years inputs) (col_median (yearly_percentiles res)) 0) in *.
  assert (Hpage : display_statistics res inputs
                  = Done (mkPage
                            (invested_by inputs (years inputs)) median
                            (option_map
                               (fun s => s / inject_Z (Z.of_nat (length (mean_returns res))))
                               (py_sum (mean_returns res)))
                            (nth (years inputs) (col_95th (yearly_percentiles res)) 0)
                            (nth (years inputs) (col_5th (yearly_percentiles res)) 0)
                            (lower_confidence res, upper_confidence res)
                            (median * (4 # 100) / 12) (median * (4 # 100)))).
  { unfold display_statistics. cbv zeta.
    rewrite (iloc_last_ok _ _ L50), (iloc_last_ok _ _ L95), (iloc_last_ok _ _ L5).
    cbn [obind]. unfold sum_over_len.
    destruct (mean_returns res) as [| m ms]; [congruence |].
    reflexivity. }
  exists res, st'. eexists. split; [exact Hrun |].
  split; [exact Hpage |].
  cbn [total_invested median_final_balance percentile_5th percentile_95th
       confidence_range yearly_withdrawal monthly_withdrawal fst snd].
  rewrite (iloc_last_ok _ _ Linv), Einv, E5, E50, E95, Elo, Ehi.
  split; [reflexivity |].
  split; [apply Percentile.percentile_ok; [exact Hfne | reflexivity] |].
  repeat split;
    try (apply Percentile.quantile_linear_mono; solve [exact Hfne | lra]).
  - ring.
  - field.
Qed.

Lemma X13_page_after_run_witness :
  exists res st' page,
    perform_monte_carlo default_inputs 2 flat_source = Ok (res, st') /\
    display_statistics res default_inputs = Done page /\
    iloc_last (col_invested (yearly_percentiles res))
    = Done (total_invested page) /\
    np.percentile (final_balances res) 50 = Ok (median_final_balance page) /\
    fst (confidence_range page) <= percentile_5th page /\
    percentile_5th page <= median_final_balance page /\
    median_final_balance page <= percentile_95th page /\
    percentile_95th page <= snd (confidence_range page) /\
    yearly_withdrawal page == (4 # 100) * median_final_balance page /\
    monthly_withdrawal page * 12 == yearly_withdrawal page.
Proof.
  apply (X13_page_after_run default_inputs 2 flat_source).
  - unfold Qle. simpl. lia.
  - lia.
Defined.

(** * plots.py: the lines of the histogram of final balances *)









(** * The average return of the page, in terms of the variates drawn *)


Section Totals.







End Totals.






